(** * autofix.js: applying ShellCheck fixes to a text

    A shallow embedding of [src/autofix.js] and the properties of its
    prefix-sum tree, line index, tab-stop translation, conflict check and
    renderer.

    Conventions of the embedding.
    - JS numbers that the code uses as offsets, lines, columns and
      precedences are integers and are modelled by [Z].
    - A JS string is the list of its code units ([str]); [len] is [.length].
    - A function that can raise returns a [result]; a method that mutates
      [this] returns the new session next to its outcome.
    - [Array.prototype.sort] is stable (ECMAScript 2019); with a fixed
      comparator every stable sort computes the same array, which
      [Js.sort] computes by insertion. *)

From Stdlib Require Import ZArith List Bool Ascii String Lia Permutation Sorted.
Import ListNotations.
Open Scope Z_scope.

(* ================================================================= *)
(** ** JavaScript strings, arrays and exceptions *)

Module Js.

Definition str := list ascii.

Definition len (s : str) : Z := Z.of_nat (List.length s).

Definition lit (s : string) : str := list_ascii_of_string s.

(** [ToIntegerOrInfinity] followed by the clamping of [substring]. *)
Definition clamp (n x : Z) : Z := Z.max 0 (Z.min x n).

(** [s.substring(a, b)]: both ends clamped to [0, s.length], swapped
    when out of order. *)
Definition substring (s : str) (a b : Z) : str :=
  let a' := clamp (len s) a in
  let b' := clamp (len s) b in
  let lo := Z.min a' b' in
  let hi := Z.max a' b' in
  firstn (Z.to_nat (hi - lo)) (skipn (Z.to_nat lo) s).

(** [s.substring(a)]: the end defaults to [s.length]. *)
Definition substring_from (s : str) (a : Z) : str :=
  substring s a (len s).

(** [s.split(sep)] for a one-unit separator; [cur] holds the units of
    the piece being read, last one first. *)
Fixpoint split_acc (sep : ascii) (cur : str) (s : str) : list str :=
  match s with
  | [] => [rev cur]
  | ch :: rest =>
      if Ascii.eqb ch sep then rev cur :: split_acc sep [] rest
      else split_acc sep (ch :: cur) rest
  end.

Definition split (sep : ascii) (s : str) : list str := split_acc sep [] s.

(** [a[i]]: [None] is [undefined]. *)
Definition index {A : Type} (a : list A) (i : Z) : option A :=
  if i <? 0 then None else nth_error a (Z.to_nat i).

(** [a.sort(cmp)], stable: [x] stays in front of the elements it does
    not compare greater than. *)
Fixpoint sort_insert {A : Type} (cmp : A -> A -> Z) (x : A) (l : list A)
  : list A :=
  match l with
  | [] => [x]
  | y :: l' =>
      if cmp x y <=? 0 then x :: y :: l' else y :: sort_insert cmp x l'
  end.

Fixpoint sort {A : Type} (cmp : A -> A -> Z) (l : list A) : list A :=
  match l with
  | [] => []
  | x :: l' => sort_insert cmp x (sort cmp l')
  end.

Inductive exn : Type :=
| TypeError
| Error (msg : string).

Inductive result (A : Type) : Type :=
| Ok (a : A)
| Throw (e : exn).
Arguments Ok {A} a.
Arguments Throw {A} e.

Definition bind {A B : Type} (r : result A) (k : A -> result B) : result B :=
  match r with
  | Ok a => k a
  | Throw e => Throw e
  end.

End Js.

Import Js.

Notation "x <- r ;; k" := (bind r (fun x => k))
  (at level 61, r at next level, right associativity).

Definition tab : ascii := Ascii.ascii_of_nat 9.
Definition newline : ascii := Ascii.ascii_of_nat 10.

(* ================================================================= *)
(** ** PrefixSumTree (lines 183-246) *)

Module PrefixSumTree.

(** A node object [{pivot, sumLeft, left, right}]; an absent child is
    [None]. *)
#[warnings="-register-all"]
Inductive node : Type :=
| Node (pivot sumLeft : Z) (left right : option node).

(** The inner [insert(node, point, value)].  The loop walks down from
    [node], updating objects in place; the function returns the updated
    subtree. *)
Fixpoint insert_node (n : node) (point value : Z) {struct n} : node :=
  match n with
  | Node pivot sumLeft l r =>
      if point <? pivot then
        Node pivot (sumLeft + value)
             (Some match l with
                   | None => Node point value None None
                   | Some child => insert_node child point value
                   end)
             r
      else if point >? pivot then
        Node pivot sumLeft l
             (Some match r with
                   | None => Node point value None None
                   | Some child => insert_node child point value
                   end)
      else
        Node pivot (sumLeft + value) l r
  end.

(** The inner [lookup(node, point)]; [sum] is the loop's accumulator. *)
Fixpoint lookup_node (n : node) (point sum : Z) {struct n} : Z :=
  match n with
  | Node pivot sumLeft l r =>
      if point <? pivot then
        match l with
        | None => sum
        | Some child => lookup_node child point sum
        end
      else if point >? pivot then
        match r with
        | None => sum + sumLeft
        | Some child => lookup_node child point (sum + sumLeft)
        end
      else sum + sumLeft
  end.

(** The object returned by [PrefixSumTree()]. *)
Record t : Type := { tree : node }.

Definition new : t := {| tree := Node 0 0 None None |}.

Definition insert (this : t) (point value : Z) : t :=
  {| tree := insert_node (tree this) point value |}.

Definition lookup (this : t) (point : Z) : Z :=
  lookup_node (tree this) point 0.

Definition reset (this : t) : t := {| tree := Node 0 0 None None |}.

(** A run of [insert] calls, first call first. *)
Definition insert_all (this : t) (ops : list (Z * Z)) : t :=
  fold_left (fun tr op => insert tr (fst op) (snd op)) ops this.

End PrefixSumTree.

(* ================================================================= *)
(** ** Fixes, replacements and candidates *)

(** A replacement record of the tool's JSON. *)
Module Replacement.
Record t : Type := {
  line : Z;
  endLine : Z;
  precedence : Z;
  insertionPoint : string;
  column : Z;
  replacement : str;
  endColumn : Z
}.
End Replacement.

(** The object built at lines 48-56. *)
Module Candidate.
Record t : Type := {
  start : Z;
  end_ : Z;
  startLine : Z;
  endLine : Z;
  precedence : Z;
  point : string;
  text : str
}.
End Candidate.

(** What [applyFix] reads of its argument: [replacements] of the value of
    a truthy [.fix], and the argument's own [replacements]; [None] is
    [undefined]. *)
Record FixBundle : Type := { bundle_replacements : option (list Replacement.t) }.

Record Item : Type := {
  fix_ : option FixBundle;
  replacements : option (list Replacement.t)
}.

(* ================================================================= *)
(** ** AutoFixer (lines 8-266) *)

(** [getLineOffsets]: [offsets[i] = sum] for every line, then one more
    entry after the loop. *)
Fixpoint getLineOffsets_from (sum : Z) (lines : list str) : list Z :=
  match lines with
  | [] => [sum]
  | l :: rest => sum :: getLineOffsets_from (sum + (len l + 1)) rest
  end.

Definition getLineOffsets (lines : list str) : list Z :=
  getLineOffsets_from 0 lines.

(** The session object.  [_lines] and [_lineOffsets] are set once from
    [file] and never assigned again, so they are functions of [_file]. *)
Record AutoFixer : Type := {
  _file : str;
  _replacements : list Candidate.t
}.

Definition _lines (this : AutoFixer) : list str := split newline (_file this).

Definition _lineOffsets (this : AutoFixer) : list Z :=
  getLineOffsets (_lines this).

Definition new_AutoFixer (file : str) : AutoFixer :=
  {| _file := file; _replacements := [] |}.

Definition set_replacements (this : AutoFixer) (l : list Candidate.t)
  : AutoFixer :=
  {| _file := _file this; _replacements := l |}.

(** The loop of [adjustTabStops] from index [i] on, [chars] being the
    units of the line from [i]. *)
Fixpoint adjustTabStops_loop (chars : str) (i logical columnNo : Z) : Z :=
  match chars with
  | [] => i + 1
  | ch :: rest =>
      let logical' :=
        if Ascii.eqb ch tab then logical + (8 - Z.rem logical 8)
        else logical + 1 in
      if columnNo <=? logical' then i + 1
      else adjustTabStops_loop rest (i + 1) logical' columnNo
  end.

(** [line.length] of an [undefined] line raises. *)
Definition adjustTabStops (this : AutoFixer) (lineNo columnNo : Z)
  : result Z :=
  match index (_lines this) (lineNo - 1) with
  | None => Throw TypeError
  | Some line => Ok (adjustTabStops_loop line 0 0 columnNo)
  end.

(** [_lineOffsets] has one entry more than [_lines], so the entry read
    here exists whenever [adjustTabStops] returns
    ([getOffsetFor_reads_entry]). *)
Definition getOffsetFor (this : AutoFixer) (line col : Z) : result Z :=
  c <- adjustTabStops this line col ;;
  Ok (nth (Z.to_nat (line - 1)) (_lineOffsets this) 0 + c - 1).

(** The test of line 60. *)
Definition overlaps (candidate existing : Candidate.t) : bool :=
  (Candidate.end_ candidate >? Candidate.start existing)
  && (Candidate.end_ existing >? Candidate.start candidate).

Definition make_candidate (this : AutoFixer) (rep : Replacement.t)
  : result Candidate.t :=
  s <- getOffsetFor this (Replacement.line rep) (Replacement.column rep) ;;
  e <- getOffsetFor this (Replacement.endLine rep) (Replacement.endColumn rep) ;;
  Ok {| Candidate.start := s;
        Candidate.end_ := e;
        Candidate.startLine := Replacement.line rep;
        Candidate.endLine := Replacement.endLine rep;
        Candidate.precedence := Replacement.precedence rep;
        Candidate.point := Replacement.insertionPoint rep;
        Candidate.text := Replacement.replacement rep |}.

(** The loop of lines 47-64.  [Ok None] is the [return false] of line 61,
    [Ok (Some cs)] the end of the loop with [candidates = cs]. *)
Fixpoint applyFix_loop (this : AutoFixer) (reps : list Replacement.t)
    (candidates : list Candidate.t) : result (option (list Candidate.t)) :=
  match reps with
  | [] => Ok (Some candidates)
  | rep :: rest =>
      candidate <- make_candidate this rep ;;
      if existsb (overlaps candidate) (_replacements this) then Ok None
      else applyFix_loop this rest (candidates ++ [candidate])
  end.

(** The replacement sequence that lines 32-44 settle on. *)
Definition fix_replacements (item : option Item)
  : option (list Replacement.t) :=
  match item with
  | None => None
  | Some it =>
      match fix_ it with
      | Some b => bundle_replacements b
      | None => replacements it
      end
  end.

Definition applyFix (this : AutoFixer) (item : option Item)
  : result bool * AutoFixer :=
  match fix_replacements item with
  | None => (Ok false, this)
  | Some reps =>
      match applyFix_loop this reps [] with
      | Throw e => (Throw e, this)
      | Ok None => (Ok false, this)
      | Ok (Some candidates) =>
          (Ok true,
           set_replacements this (_replacements this ++ candidates))
      end
  end.

(** The object [{applied, rejected}]. *)
Record FixesResult : Type := {
  applied : list (option Item);
  rejected : list (option Item)
}.

Fixpoint applyFixes_loop (this : AutoFixer) (fixlist : list (option Item))
    (res : FixesResult) : result FixesResult * AutoFixer :=
  match fixlist with
  | [] => (Ok res, this)
  | f :: rest =>
      match applyFix this f with
      | (Throw e, this') => (Throw e, this')
      | (Ok true, this') =>
          applyFixes_loop this' rest
            {| applied := applied res ++ [f]; rejected := rejected res |}
      | (Ok false, this') =>
          applyFixes_loop this' rest
            {| applied := applied res; rejected := rejected res ++ [f] |}
      end
  end.

Definition applyFixes (this : AutoFixer) (fixlist : list (option Item))
  : result FixesResult * AutoFixer :=
  applyFixes_loop this fixlist {| applied := []; rejected := [] |}.

(** The anchor of lines 171-178. *)
Definition insertion_point (rep : Candidate.t) : result Z :=
  if String.eqb (Candidate.point rep) "beforeStart"%string then
    Ok (Candidate.start rep)
  else if String.eqb (Candidate.point rep) "afterEnd"%string then
    Ok (Candidate.end_ rep + 1)
  else
    Throw (Error ("Unrecognized insertion point " ++ Candidate.point rep)%string).

Definition applyReplacement (file : str) (tree : PrefixSumTree.t)
    (rep : Candidate.t) : result (str * PrefixSumTree.t) :=
  let from := Candidate.start rep + PrefixSumTree.lookup tree (Candidate.start rep) in
  let to := Candidate.end_ rep + PrefixSumTree.lookup tree (Candidate.end_ rep) in
  let file' :=
    (substring file 0 from ++ Candidate.text rep ++ substring_from file to)%list in
  point <- insertion_point rep ;;
  Ok (file',
      PrefixSumTree.insert tree point (len (Candidate.text rep) - (to - from))).

(** The comparator of lines 72-74 and 90-92. *)
Definition by_precedence (a b : Candidate.t) : Z :=
  Candidate.precedence b - Candidate.precedence a.

(** The loop of lines 78-80. *)
Fixpoint applyReplacements (reps : list Candidate.t) (file : str)
    (tree : PrefixSumTree.t) : result (str * PrefixSumTree.t) :=
  match reps with
  | [] => Ok (file, tree)
  | rep :: rest =>
      ft <- applyReplacement file tree rep ;;
      applyReplacements rest (fst ft) (snd ft)
  end.

Definition getResult (this : AutoFixer) : result str * AutoFixer :=
  let sorted := sort by_precedence (_replacements this) in
  let this' := set_replacements this sorted in
  (ft <- applyReplacements (rev sorted) (_file this') PrefixSumTree.new ;;
   Ok (fst ft),
   this').

(** The loop of lines 100-104. *)
Fixpoint snippet_loop (reps : list Candidate.t) (file : str)
    (tree : PrefixSumTree.t) (minLine maxLine : Z)
  : result (str * PrefixSumTree.t * Z * Z) :=
  match reps with
  | [] => Ok (file, tree, minLine, maxLine)
  | rep :: rest =>
      ft <- applyReplacement file tree rep ;;
      snippet_loop rest (fst ft) (snd ft)
        (Z.min minLine (Candidate.startLine rep))
        (Z.max maxLine (Candidate.endLine rep))
  end.

(** [getSnippet].  An [undefined] table entry reaches [substring] as
    [undefined] (start) or, after [+=], as [NaN] (end); both count as 0
    there. *)
Definition getSnippet (this : AutoFixer) : result str * AutoFixer :=
  match _replacements this with
  | [] => (Throw (Error "No fixes have been applied."%string), this)
  | _ :: _ =>
      let sorted := sort by_precedence (_replacements this) in
      let this' := set_replacements this sorted in
      match sorted with
      | [] => (Throw TypeError, this')
      | first :: _ =>
          (r <- snippet_loop (rev sorted) (_file this') PrefixSumTree.new
                 (Candidate.startLine first) (Candidate.endLine first) ;;
           let '(file, tree, minLine, maxLine) := r in
           let startOffset :=
             match index (_lineOffsets this') (minLine - 1) with
             | Some o => o
             | None => 0
             end in
           let endOffset :=
             match index (_lineOffsets this') maxLine with
             | Some o => o + PrefixSumTree.lookup tree o
             | None => 0
             end in
           Ok (substring file startOffset endOffset),
           this')
      end
  end.

Definition hasModifications (this : AutoFixer) : bool :=
  0 <? Z.of_nat (List.length (_replacements this)).

Definition reset (this : AutoFixer) : AutoFixer := set_replacements this [].

(* ================================================================= *)
(** ** The data of [autofixTest] (lines 269-426) and other samples *)

Definition dquote : str := [Ascii.ascii_of_nat 34].

Definition mk_replacement (line endLine precedence : Z)
    (insertionPoint : string) (column : Z) (replacement : str)
    (endColumn : Z) : Replacement.t :=
  {| Replacement.line := line;
     Replacement.endLine := endLine;
     Replacement.precedence := precedence;
     Replacement.insertionPoint := insertionPoint;
     Replacement.column := column;
     Replacement.replacement := replacement;
     Replacement.endColumn := endColumn |}.

(** A comment of the tool with its [fix], and a bare fix. *)
Definition comment (reps : list Replacement.t) : option Item :=
  Some {| fix_ := Some {| bundle_replacements := Some reps |};
          replacements := None |}.

Definition bare (reps : list Replacement.t) : option Item :=
  Some {| fix_ := None; replacements := Some reps |}.

Definition test1_text : str := lit "cd $1".

Definition test1_fixes : list (option Item) :=
  [ comment [ mk_replacement 1 1 5 "beforeStart" 6 (lit " || exit") 6 ];
    comment [ mk_replacement 1 1 7 "afterEnd" 4 dquote 4;
              mk_replacement 1 1 7 "beforeStart" 6 dquote 6 ] ].

Definition test2_text : str :=
  ([tab; tab] ++ lit "foo bar" ++ [newline]
   ++ [tab; tab] ++ lit "echo $var:" ++ [tab] ++ lit "$value")%list.

Definition test2_expected : str :=
  ([tab; tab] ++ lit "foo bar" ++ [newline]
   ++ [tab; tab] ++ lit "echo " ++ dquote ++ lit "$var" ++ dquote ++ lit ":"
   ++ [tab] ++ dquote ++ lit "$value" ++ dquote)%list.

Definition test2_fixes : list (option Item) :=
  [ comment [ mk_replacement 2 2 7 "afterEnd" 33 dquote 33;
              mk_replacement 2 2 7 "beforeStart" 39 dquote 39 ];
    comment [ mk_replacement 2 2 7 "afterEnd" 22 dquote 22;
              mk_replacement 2 2 7 "beforeStart" 26 dquote 26 ] ].

Definition test3_text : str :=
  (lit "foo" ++ [newline] ++ lit "cd foo" ++ [newline] ++ lit "bar"
   ++ [newline])%list.

Definition test3_fix : option Item :=
  bare [ mk_replacement 2 2 5 "beforeStart" 7 (lit " || exit") 7 ].

(** A text of six characters on one line, and replacements of its columns
    [column .. endColumn) by [replacement]. *)
Definition sample_text : str := lit "abcdef".

Definition sample_rep (column endColumn precedence : Z) (replacement : string)
  : Replacement.t :=
  mk_replacement 1 1 precedence "beforeStart" column (lit replacement) endColumn.

(** The session on [sample_text] that has accepted the replacement of
    columns 2 to 5, the range [1, 4). *)
Definition sample_session : AutoFixer :=
  snd (applyFix (new_AutoFixer sample_text) (bare [sample_rep 2 5 1 "X"])).

(** The session on [sample_text] that has accepted the replacement of
    columns 2 to 5 by one character and, in a second fix, that of columns
    5 to 7 by three characters, anchored after its end. *)
Definition sample_two_fixes : list (option Item) :=
  [ bare [ sample_rep 2 5 1 "X" ];
    bare [ mk_replacement 1 1 2 "afterEnd" 5 (lit "YZW") 7 ] ].

Definition sample_session2 : AutoFixer :=
  snd (applyFixes (new_AutoFixer sample_text) sample_two_fixes).

(** One fix whose two replacements, of columns 1 to 4 and 2 to 5,
    overlap each other. *)
Definition sample_self_overlap : option Item :=
  bare [sample_rep 1 4 1 "X"; sample_rep 2 5 1 "Y"].

(* ================================================================= *)
(** ** Definitions used to state the properties *)

(** The sum of the deltas of the [insert] calls in [ops] whose point is at
    most [p]. *)
Definition deltas_upto (ops : list (Z * Z)) (p : Z) : Z :=
  fold_right Z.add 0 (map snd (filter (fun op => fst op <=? p) ops)).

(** [on_child P o]: [P] holds of the child [o], if there is one. *)
Definition on_child (P : PrefixSumTree.node -> Prop)
    (o : option PrefixSumTree.node) : Prop :=
  match o with
  | None => True
  | Some c => P c
  end.

(** The characters of the lines [ls], one line terminator counted for
    each. *)
Definition lines_span (ls : list str) : Z :=
  fold_right (fun l acc => len l + 1 + acc) 0 ls.

(** The candidates of a whole replacement sequence, when every one of
    them resolves. *)
Fixpoint make_candidates (this : AutoFixer) (reps : list Replacement.t)
  : result (list Candidate.t) :=
  match reps with
  | [] => Ok []
  | rep :: rest =>
      c <- make_candidate this rep ;;
      cs <- make_candidates this rest ;;
      Ok (c :: cs)
  end.

(** Two ranges that meet at an endpoint. *)
Definition touching (c e : Candidate.t) : Prop :=
  Candidate.end_ c = Candidate.start e \/ Candidate.end_ e = Candidate.start c.

(** No candidate of [g] overlaps one of [h]. *)
Definition disjoint_groups (g h : list Candidate.t) : Prop :=
  forall c d, In c g -> In d h -> overlaps c d = false.

(** What one [applyFix] call admits: the candidates it appends, as one
    group, when it returns [true]. *)
Definition admitted (this : AutoFixer) (item : option Item)
  : list (list Candidate.t) :=
  match applyFix this item with
  | (Ok true, this') =>
      [skipn (List.length (_replacements this)) (_replacements this')]
  | _ => []
  end.

(** The groups admitted by the [applyFix] calls of one [applyFixes]. *)
Fixpoint admitted_all (this : AutoFixer) (fixlist : list (option Item))
  : list (list Candidate.t) :=
  match fixlist with
  | [] => []
  | f :: rest =>
      match applyFix this f with
      | (Throw _, _) => []
      | (Ok _, this') => admitted this f ++ admitted_all this' rest
      end
  end.

(** [reachable file this groups]: [this] is the session on [file] after
    some calls of its methods, and [groups] lists, in order, what each
    accepted fix admitted since the last [reset]. *)
Inductive reachable (file : str) : AutoFixer -> list (list Candidate.t) -> Prop :=
| reach_new :
    reachable file (new_AutoFixer file) []
| reach_applyFix this groups item :
    reachable file this groups ->
    reachable file (snd (applyFix this item)) (groups ++ admitted this item)
| reach_applyFixes this groups fixlist :
    reachable file this groups ->
    reachable file (snd (applyFixes this fixlist))
              (groups ++ admitted_all this fixlist)
| reach_reset this groups :
    reachable file this groups ->
    reachable file (reset this) []
| reach_getResult this groups :
    reachable file this groups ->
    reachable file (snd (getResult this)) groups
| reach_getSnippet this groups :
    reachable file this groups ->
    reachable file (snd (getSnippet this)) groups.

(** Induction on a node through its children. *)
Section NodeInduction.
Variable P : PrefixSumTree.node -> Prop.
Hypothesis step : forall pivot sumLeft l r,
    on_child P l -> on_child P r -> P (PrefixSumTree.Node pivot sumLeft l r).

Fixpoint node_children_ind (n : PrefixSumTree.node) : P n :=
  match n with
  | PrefixSumTree.Node pivot sumLeft l r =>
      step pivot sumLeft l r
        (match l return on_child P l with
         | None => I
         | Some c => node_children_ind c
         end)
        (match r return on_child P r with
         | None => I
         | Some c => node_children_ind c
         end)
  end.
End NodeInduction.

(** [x] may stand in front of [y] in an array sorted with [cmp]. *)
Definition in_order {A : Type} (cmp : A -> A -> Z) (x y : A) : Prop :=
  cmp x y <= 0.

(** What a session holds, against what its accepted fixes admitted. *)
Definition grouped (file : str) (this : AutoFixer)
    (groups : list (list Candidate.t)) : Prop :=
  _file this = file
  /\ Permutation (_replacements this) (List.concat groups)
  /\ ForallOrdPairs disjoint_groups groups.

(** The length a candidate removes, and the net change of length that
    its replacement makes. *)
Definition width (c : Candidate.t) : Z :=
  Candidate.end_ c - Candidate.start c.

Definition net_delta (c : Candidate.t) : Z :=
  len (Candidate.text c) - width c.

Definition sum_of (g : Candidate.t -> Z) (l : list Candidate.t) : Z :=
  fold_right Z.add 0 (map g l).

Definition total_delta (l : list Candidate.t) : Z := sum_of net_delta l.

Definition total_width (l : list Candidate.t) : Z := sum_of width l.

(** A range between [a] and [b], its ends in order. *)
Definition within (a b : Z) (c : Candidate.t) : Prop :=
  a <= Candidate.start c
  /\ Candidate.start c <= Candidate.end_ c
  /\ Candidate.end_ c <= b.

(** A range of the text [file], its ends in order. *)
Definition in_text (file : str) (c : Candidate.t) : Prop :=
  within 0 (len file) c.

(** Two ranges that pass the test of line 60. *)
Definition disjoint (c d : Candidate.t) : Prop := overlaps c d = false.

(** An insertion point that [applyReplacement] knows. *)
Definition recognised (c : Candidate.t) : Prop :=
  Candidate.point c = "beforeStart"%string
  \/ Candidate.point c = "afterEnd"%string.

(** The anchor of a candidate, where it has one. *)
Definition anchor (c : Candidate.t) : Z :=
  match insertion_point c with
  | Ok a => a
  | Throw _ => 0
  end.

(** The anchor of [d] lies neither inside the range of [c] nor at its
    end. *)
Definition anchored_apart (c d : Candidate.t) : Prop :=
  ~ (Candidate.start c < anchor d <= Candidate.end_ c).

(** Two candidates that do not overlap and whose anchors keep clear of
    each other's range. *)
Definition separate (c d : Candidate.t) : Prop :=
  disjoint c d /\ anchored_apart c d /\ anchored_apart d c.

(** The [insert] call that the splice of [c] ends with, when its range
    was shifted as a whole. *)
Definition shift_op (c : Candidate.t) : Z * Z := (anchor c, net_delta c).

(** A candidate of [sample_text] whose insertion point the code does not
    know, and the session that holds it alone. *)
Definition sample_unanchored : Candidate.t :=
  {| Candidate.start := 2;
     Candidate.end_ := 2;
     Candidate.startLine := 1;
     Candidate.endLine := 1;
     Candidate.precedence := 1;
     Candidate.point := "middle";
     Candidate.text := lit "X" |}.

(** The candidate that replaces the range from [s] to [e] of
    [sample_text] by one character. *)
Definition sample_candidate (s e : Z) : Candidate.t :=
  {| Candidate.start := s;
     Candidate.end_ := e;
     Candidate.startLine := 1;
     Candidate.endLine := 1;
     Candidate.precedence := 1;
     Candidate.point := "beforeStart";
     Candidate.text := lit "X" |}.

Definition sample_session3 : AutoFixer :=
  set_replacements (new_AutoFixer sample_text) [sample_unanchored].

(* ================================================================= *)
(** ** Definitions used to state the further properties *)

(** [ls.join(sep)] for a one-unit separator. *)
Fixpoint join (sep : ascii) (ls : list str) : str :=
  match ls with
  | [] => []
  | l :: rest =>
      match rest with
      | [] => l
      | _ :: _ => (l ++ sep :: join sep rest)%list
      end
  end.

(** The number of lines of the session's text. *)
Definition line_count (file : str) : Z :=
  Z.of_nat (List.length (split newline file)).

(** [_lineOffsets[lineNo - 1]] of a session on [file], 0 where there is no
    such entry. *)
Definition line_start (file : str) (lineNo : Z) : Z :=
  nth (Z.to_nat (lineNo - 1)) (getLineOffsets (split newline file)) 0.

(** The offset [o] lies on line [lineNo] of [file]: between the start of
    the line and its end. *)
Definition on_line (file : str) (lineNo o : Z) : Prop :=
  exists l,
    index (split newline file) (lineNo - 1) = Some l
    /\ line_start file lineNo <= o
    /\ o <= line_start file lineNo + len l.

(** A candidate whose ends lie on its lines. *)
Definition placed (file : str) (c : Candidate.t) : Prop :=
  on_line file (Candidate.startLine c) (Candidate.start c)
  /\ on_line file (Candidate.endLine c) (Candidate.end_ c).

(** A strict bound that may be absent. *)
Definition above (lo : option Z) (x : Z) : Prop :=
  match lo with
  | None => True
  | Some b => b < x
  end.

Definition below (hi : option Z) (x : Z) : Prop :=
  match hi with
  | None => True
  | Some b => x < b
  end.

(** A node whose pivots are those of a search tree between [lo] and
    [hi]: smaller pivots to the left, greater ones to the right. *)
Fixpoint search_tree (lo hi : option Z) (n : PrefixSumTree.node) : Prop :=
  match n with
  | PrefixSumTree.Node pivot _ l r =>
      above lo pivot /\ below hi pivot
      /\ match l with
         | None => True
         | Some c => search_tree lo (Some pivot) c
         end
      /\ match r with
         | None => True
         | Some c => search_tree (Some pivot) hi c
         end
  end.

(** The pivots of a node and of the nodes under it, left to right. *)
Fixpoint pivots (n : PrefixSumTree.node) : list Z :=
  match n with
  | PrefixSumTree.Node pivot _ l r =>
      (match l with
       | None => []
       | Some c => pivots c
       end
       ++ pivot
       :: match r with
          | None => []
          | Some c => pivots c
          end)%list
  end.

(** The least start line and the greatest end line of a list of
    candidates, from [lo] and [hi]. *)
Definition min_startLine (lo : Z) (l : list Candidate.t) : Z :=
  fold_left (fun m c => Z.min m (Candidate.startLine c)) l lo.

Definition max_endLine (hi : Z) (l : list Candidate.t) : Z :=
  fold_left (fun m c => Z.max m (Candidate.endLine c)) l hi.

(* ================================================================= *)
(** * Properties *)

(* ================================================================= *)
(** ** The prefix-sum tree *)

Section PrefixSumTreeFacts.

Import PrefixSumTree.

(** The accumulator of the lookup loop only adds up. *)
Lemma lookup_node_sum (n : node) :
  forall p sum, lookup_node n p sum = sum + lookup_node n p 0.
Proof.
  induction n as [pivot sumLeft l r IHl IHr] using node_children_ind.
  intros p sum. cbn [lookup_node].
  destruct (p <? pivot).
  - destruct l as [c|]; cbn [on_child] in IHl; [apply IHl | lia].
  - destruct (p >? pivot); [|lia].
    destruct r as [c|]; cbn [on_child] in IHr; [|lia].
    rewrite (IHr p (sum + sumLeft)), (IHr p (0 + sumLeft)). lia.
Qed.

Lemma lookup_leaf (point value p sum : Z) :
  lookup_node (Node point value None None) p sum
  = sum + (if point <=? p then value else 0).
Proof.
  cbn [lookup_node]. rewrite Z.gtb_ltb.
  destruct (Z.ltb_spec p point), (Z.ltb_spec point p), (Z.leb_spec point p);
    lia.
Qed.

(** One [insert] shifts every later [lookup] at or after its point by
    its value, and no other. *)
Lemma lookup_insert_node (n : node) :
  forall point value p sum,
    lookup_node (insert_node n point value) p sum
    = lookup_node n p sum + (if point <=? p then value else 0).
Proof.
  induction n as [pivot sumLeft l r IHl IHr] using node_children_ind.
  intros point value p sum. cbn [insert_node].
  rewrite Z.gtb_ltb.
  destruct (Z.ltb_spec point pivot) as [Hlt|Hge];
    [|destruct (Z.ltb_spec pivot point) as [Hgt|Hle]];
    cbn [lookup_node]; rewrite Z.gtb_ltb;
    destruct (Z.ltb_spec p pivot) as [Hp|Hp];
    [| destruct (Z.ltb_spec pivot p) as [Hp'|Hp']
     | | destruct (Z.ltb_spec pivot p) as [Hp'|Hp']
     | | destruct (Z.ltb_spec pivot p) as [Hp'|Hp'] ].
  - (* point < pivot, p < pivot: the left child decides *)
    destruct l as [c|]; cbn [on_child] in IHl;
      [apply IHl | apply lookup_leaf].
  - (* point < pivot < p *)
    destruct (Z.leb_spec point p); [|lia].
    destruct r as [c|]; [|lia].
    rewrite (lookup_node_sum c p (sum + (sumLeft + value))),
      (lookup_node_sum c p (sum + sumLeft)). lia.
  - destruct (Z.leb_spec point p); lia.
  - (* pivot < point, p < pivot *)
    destruct (Z.leb_spec point p); [lia|].
    destruct l as [c|]; lia.
  - (* pivot < point, pivot < p: the right child decides *)
    destruct r as [c|]; cbn [on_child] in IHr;
      [apply IHr | apply lookup_leaf].
  - destruct (Z.leb_spec point p); lia.
  - (* point = pivot *)
    destruct (Z.leb_spec point p); [lia|].
    destruct l as [c|]; lia.
  - destruct (Z.leb_spec point p); [|lia].
    destruct r as [c|]; [|lia].
    rewrite (lookup_node_sum c p (sum + (sumLeft + value))),
      (lookup_node_sum c p (sum + sumLeft)). lia.
  - destruct (Z.leb_spec point p); lia.
Qed.

Lemma lookup_insert (tr : t) (point value p : Z) :
  lookup (insert tr point value) p
  = lookup tr p + (if point <=? p then value else 0).
Proof. unfold lookup, insert; cbn [tree]. apply lookup_insert_node. Qed.

Lemma lookup_new (p : Z) : lookup new p = 0.
Proof.
  unfold lookup, new; cbn.
  destruct (p <? 0); [reflexivity|]. destruct (p >? 0); reflexivity.
Qed.

Lemma lookup_insert_all (ops : list (Z * Z)) :
  forall tr p,
    lookup (insert_all tr ops) p = lookup tr p + deltas_upto ops p.
Proof.
  induction ops as [|[point value] ops IH]; intros tr p.
  - unfold deltas_upto; cbn. lia.
  - unfold insert_all in *; cbn [fold_left fst snd].
    rewrite IH, lookup_insert. unfold deltas_upto; cbn [filter fst].
    destruct (point <=? p); cbn [map fold_right snd]; lia.
Qed.

(** C1.  After any sequence of [insert(point, delta)] calls on a fresh
    PrefixSumTree, [lookup(p)] is the sum of the deltas of the inserted
    points that are less than or equal to [p]. *)
Theorem lookup_is_prefix_sum (ops : list (Z * Z)) (p : Z) :
  lookup (insert_all new ops) p = deltas_upto ops p.
Proof. rewrite lookup_insert_all, lookup_new. lia. Qed.

End PrefixSumTreeFacts.

(* ================================================================= *)
(** ** The line index *)

Section LineIndex.

Lemma len_nonneg (s : str) : 0 <= len s.
Proof. unfold len. lia. Qed.

Lemma len_app (s1 s2 : str) : len (s1 ++ s2) = len s1 + len s2.
Proof. unfold len. rewrite length_app. lia. Qed.

Lemma len_cons (ch : ascii) (s : str) : len (ch :: s) = len s + 1.
Proof. unfold len. cbn [List.length]. lia. Qed.

Lemma lines_span_cons (l : str) (ls : list str) :
  lines_span (l :: ls) = len l + 1 + lines_span ls.
Proof. reflexivity. Qed.

Lemma lines_span_nonneg (ls : list str) : 0 <= lines_span ls.
Proof.
  induction ls as [|l ls IH]; [cbn; lia|].
  rewrite lines_span_cons. pose proof (len_nonneg l). lia.
Qed.

(** [split] cuts at every separator, so the pieces and one separator for
    each piece but the last make up the text. *)
Lemma lines_span_split_acc (sep : ascii) (s : str) :
  forall cur, lines_span (split_acc sep cur s) = len cur + len s + 1.
Proof.
  induction s as [|ch rest IH]; intros cur; cbn [split_acc].
  - rewrite lines_span_cons. unfold len. rewrite length_rev. cbn. lia.
  - destruct (Ascii.eqb ch sep).
    + rewrite lines_span_cons, IH, len_cons. unfold len.
      rewrite length_rev. cbn. lia.
    + rewrite IH, !len_cons. lia.
Qed.

Lemma lines_span_split (sep : ascii) (text : str) :
  lines_span (split sep text) = len text + 1.
Proof. unfold split. rewrite lines_span_split_acc. unfold len at 1. cbn. lia. Qed.

Lemma getLineOffsets_from_entries (lines : list str) :
  forall sum,
    getLineOffsets_from sum lines
    = map (fun i => sum + lines_span (firstn i lines))
          (seq 0 (S (List.length lines))).
Proof.
  induction lines as [|l rest IH]; intros sum.
  - cbn. f_equal. lia.
  - cbn [getLineOffsets_from List.length]. rewrite IH.
    generalize (S (List.length rest)) as n. intros n.
    cbn [seq map firstn]. f_equal; [cbn; lia|].
    rewrite <- seq_shift, map_map. apply map_ext. intros i.
    cbn [firstn]. rewrite lines_span_cons. lia.
Qed.

Lemma getLineOffsets_from_last (lines : list str) :
  forall sum,
    last (getLineOffsets_from sum lines) 0 = sum + lines_span lines.
Proof.
  induction lines as [|l rest IH]; intros sum.
  - cbn. lia.
  - cbn [getLineOffsets_from].
    assert (Hne : getLineOffsets_from (sum + (len l + 1)) rest <> [])
      by (destruct rest; discriminate).
    destruct (getLineOffsets_from (sum + (len l + 1)) rest) as [|o os] eqn:E;
      [congruence|].
    change (last (sum :: o :: os) 0) with (last (o :: os) 0).
    rewrite <- E, IH, lines_span_cons. lia.
Qed.

Lemma getLineOffsets_from_lower (lines : list str) :
  forall sum, Forall (fun o => sum <= o) (getLineOffsets_from sum lines).
Proof.
  induction lines as [|l rest IH]; intros sum; cbn [getLineOffsets_from].
  - constructor; [lia | constructor].
  - constructor; [lia|].
    eapply Forall_impl; [|apply IH]. cbn. intros o Ho.
    pose proof (len_nonneg l). lia.
Qed.

Lemma getLineOffsets_from_increasing (lines : list str) :
  forall sum, StronglySorted Z.lt (getLineOffsets_from sum lines).
Proof.
  induction lines as [|l rest IH]; intros sum; cbn [getLineOffsets_from].
  - repeat constructor.
  - constructor; [apply IH|].
    eapply Forall_impl; [|apply getLineOffsets_from_lower]. cbn.
    intros o Ho. pose proof (len_nonneg l). lia.
Qed.

(** C5, as the code has it.  The table of a session has one entry for
    each line, the sum of (length + 1) over the lines before it, and one
    more after the last line, which is the length of the text plus one;
    the table is strictly increasing. *)
Theorem lineOffsets_table (text : str) :
  let this := new_AutoFixer text in
  _lineOffsets this
  = map (fun i => lines_span (firstn i (_lines this)))
        (seq 0 (S (List.length (_lines this))))
  /\ last (_lineOffsets this) 0 = len text + 1
  /\ StronglySorted Z.lt (_lineOffsets this).
Proof.
  cbv zeta. unfold _lineOffsets, getLineOffsets, _lines.
  cbn [_file new_AutoFixer]. split; [|split].
  - rewrite getLineOffsets_from_entries. apply map_ext. intros i. lia.
  - rewrite getLineOffsets_from_last, lines_span_split. lia.
  - apply getLineOffsets_from_increasing.
Qed.

(** C5, as the claim has it: the entry after the last line of
    ["cd $1"] is 6, and the text has 5 characters. *)
Lemma lineOffsets_sentinel_counterexample :
  let text := lit "cd $1" in
  last (_lineOffsets (new_AutoFixer text)) 0 = 6 /\ len text = 5
  /\ last (_lineOffsets (new_AutoFixer text)) 0 <> len text.
Proof. cbv zeta. vm_compute. repeat split; discriminate. Qed.

End LineIndex.

(* ================================================================= *)
(** ** The tab-stop translation *)

Section TabStops.

(** On a stretch without tabs the logical cursor equals the index, and
    the loop stops at the requested column. *)
Lemma adjustTabStops_loop_no_tab (chars : str) :
  forall i c,
    0 <= i -> i < c <= i + len chars + 1 ->
    Forall (fun ch => ch <> tab) (firstn (Z.to_nat (c - 1 - i)) chars) ->
    adjustTabStops_loop chars i i c = c.
Proof.
  induction chars as [|ch rest IH]; intros i c Hi Hc Hfree;
    cbn [adjustTabStops_loop].
  - unfold len in Hc. cbn in Hc. lia.
  - rewrite len_cons in Hc.
    destruct (Z.eq_dec c (i + 1)) as [->|Hne].
    + (* the requested column is this character's *)
      destruct (Ascii.eqb ch tab).
      * pose proof (Z.rem_bound_pos i 8 Hi ltac:(lia)).
        destruct (Z.leb_spec (i + 1) (i + (8 - Z.rem i 8))); [reflexivity|lia].
      * rewrite Z.leb_refl. reflexivity.
    + (* a later column: this character is no tab *)
      replace (Z.to_nat (c - 1 - i)) with (S (Z.to_nat (c - 1 - (i + 1))))
        in Hfree by lia.
      cbn [firstn] in Hfree. inversion Hfree as [|? ? Hch Hrest]; subst.
      destruct (Ascii.eqb_spec ch tab) as [->|_]; [congruence|].
      destruct (Z.leb_spec c (i + 1)); [lia|].
      apply IH; [lia | lia | exact Hrest].
Qed.

(** On a stretch without tabs a column past its end runs the loop to
    the end. *)
Lemma adjustTabStops_loop_past_end (chars : str) :
  forall i c,
    i + len chars + 1 < c ->
    Forall (fun ch => ch <> tab) chars ->
    adjustTabStops_loop chars i i c = i + len chars + 1.
Proof.
  induction chars as [|ch rest IH]; intros i c Hc Hfree;
    cbn [adjustTabStops_loop].
  - unfold len. cbn. lia.
  - rewrite len_cons in Hc |- *. pose proof (len_nonneg rest).
    inversion Hfree as [|? ? Hch Hrest]; subst.
    destruct (Ascii.eqb_spec ch tab) as [->|_]; [congruence|].
    destruct (Z.leb_spec c (i + 1)); [lia|].
    rewrite IH by (try assumption; lia). lia.
Qed.

(** A column before the first one stops the loop at once. *)
Lemma adjustTabStops_loop_before_start (chars : str) (c : Z) :
  c < 1 -> adjustTabStops_loop chars 0 0 c = 1.
Proof.
  intros Hc. destruct chars as [|ch rest]; cbn [adjustTabStops_loop];
    [reflexivity|].
  destruct (Ascii.eqb ch tab).
  - destruct (Z.leb_spec c (0 + (8 - Z.rem 0 8))); [reflexivity|].
    cbn in *. lia.
  - destruct (Z.leb_spec c (0 + 1)); [reflexivity | lia].
Qed.

(** C8, as the code has it.  For a line of the text and a column [c]
    with no tab among the characters of the line before column [c]:
    [adjustTabStops] returns [c] when [c] is from 1 to one past the
    line's length; it returns one past the line's length, the end of the
    line, when [c] is greater; and it returns 1 when [c] is less than
    1. *)
Theorem adjustTabStops_identity
    (this : AutoFixer) (lineNo c : Z) (line : str) :
  index (_lines this) (lineNo - 1) = Some line ->
  Forall (fun ch => ch <> tab) (firstn (Z.to_nat (c - 1)) line) ->
  (1 <= c <= len line + 1 -> adjustTabStops this lineNo c = Ok c)
  /\ (len line + 1 < c -> adjustTabStops this lineNo c = Ok (len line + 1))
  /\ (c < 1 -> adjustTabStops this lineNo c = Ok 1).
Proof.
  intros Hline Hfree. unfold adjustTabStops. rewrite Hline.
  split; [|split]; intros Hc; f_equal.
  - apply adjustTabStops_loop_no_tab; [lia | lia |].
    replace (c - 1 - 0) with (c - 1) by lia. exact Hfree.
  - rewrite firstn_all2 in Hfree by (unfold len in Hc; lia).
    rewrite (adjustTabStops_loop_past_end line 0 c) by (assumption || lia).
    lia.
  - apply adjustTabStops_loop_before_start. exact Hc.
Qed.

Lemma adjustTabStops_identity_witness :
  adjustTabStops (new_AutoFixer (lit "cd $1")) 1 4 = Ok 4
  /\ adjustTabStops (new_AutoFixer (lit "cd $1")) 1 9
     = Ok (len (lit "cd $1") + 1)
  /\ adjustTabStops (new_AutoFixer (lit "cd $1")) 1 0 = Ok 1.
Proof.
  split; [|split].
  - apply (adjustTabStops_identity (new_AutoFixer (lit "cd $1")) 1 4
             (lit "cd $1")).
    + reflexivity.
    + vm_compute. repeat constructor; discriminate.
    + vm_compute. split; discriminate.
  - apply (adjustTabStops_identity (new_AutoFixer (lit "cd $1")) 1 9
             (lit "cd $1")).
    + reflexivity.
    + vm_compute. repeat constructor; discriminate.
    + vm_compute. reflexivity.
  - apply (adjustTabStops_identity (new_AutoFixer (lit "cd $1")) 1 0
             (lit "cd $1")).
    + reflexivity.
    + vm_compute. constructor.
    + vm_compute. reflexivity.
Defined.

(** C8, as the claim has it: the line ["ab"] has no tab at all, and
    column 5 is translated to 3, the end of the line. *)
Lemma adjustTabStops_past_end_counterexample :
  let this := new_AutoFixer (lit "ab") in
  index (_lines this) (1 - 1) = Some (lit "ab")
  /\ Forall (fun ch => ch <> tab) (lit "ab")
  /\ adjustTabStops this 1 5 = Ok 3
  /\ adjustTabStops this 1 5 <> Ok 5.
Proof.
  cbv zeta. split; [reflexivity|]. split.
  - repeat constructor; discriminate.
  - split; [reflexivity | discriminate].
Qed.

End TabStops.

(* ================================================================= *)
(** ** Offsets into the text *)

Section Offsets.

Lemma getLineOffsets_from_length (lines : list str) :
  forall sum,
    List.length (getLineOffsets_from sum lines) = S (List.length lines).
Proof.
  induction lines as [|l rest IH]; intros sum; cbn [getLineOffsets_from];
    [reflexivity|].
  cbn [List.length]. rewrite IH. reflexivity.
Qed.

(** Where [adjustTabStops] returns, [_lineOffsets[line-1]] is an entry of
    the table: [getOffsetFor] never adds [undefined]. *)
Lemma getOffsetFor_reads_entry (this : AutoFixer) (line col c : Z) :
  adjustTabStops this line col = Ok c ->
  index (_lineOffsets this) (line - 1)
  = Some (nth (Z.to_nat (line - 1)) (_lineOffsets this) 0).
Proof.
  unfold adjustTabStops, index.
  destruct (line - 1 <? 0); [discriminate|].
  destruct (nth_error (_lines this) (Z.to_nat (line - 1))) as [l|] eqn:Hl;
    [|discriminate].
  intros _. apply nth_error_nth'.
  unfold _lineOffsets, getLineOffsets. rewrite getLineOffsets_from_length.
  assert (Z.to_nat (line - 1) < List.length (_lines this))%nat
    by (apply nth_error_Some; congruence).
  lia.
Qed.

(** An offset that [getOffsetFor] returns lies in the text or at its
    end. *)
Lemma adjustTabStops_loop_range (chars : str) :
  forall i logical c,
    i + 1 <= adjustTabStops_loop chars i logical c <= i + len chars + 1.
Proof.
  induction chars as [|ch rest IH]; intros i logical c;
    cbn [adjustTabStops_loop].
  - unfold len. cbn. lia.
  - rewrite len_cons. pose proof (len_nonneg rest).
    destruct (c <=? _); [lia|].
    specialize (IH (i + 1)
                  (if Ascii.eqb ch tab then logical + (8 - Z.rem logical 8)
                   else logical + 1) c).
    lia.
Qed.

End Offsets.

(* ================================================================= *)
(** ** Accepting and rejecting a fix *)

Section ApplyFix.

Variable this : AutoFixer.

Lemma overlaps_sym (c d : Candidate.t) : overlaps c d = overlaps d c.
Proof. unfold overlaps. apply andb_comm. Qed.

Lemma set_replacements_same :
  set_replacements this (_replacements this) = this.
Proof. destruct this. reflexivity. Qed.

(** The loop returns [false] at the first candidate that overlaps an
    accepted one, provided the candidates before it resolve. *)
Lemma applyFix_loop_rejects (pre : list Replacement.t) :
  forall (r : Replacement.t) (post : list Replacement.t)
         (cs acc : list Candidate.t) (c : Candidate.t),
    make_candidates this pre = Ok cs ->
    make_candidate this r = Ok c ->
    existsb (overlaps c) (_replacements this) = true ->
    applyFix_loop this (pre ++ r :: post) acc = Ok None.
Proof.
  induction pre as [|r0 pre IH]; intros r post cs acc c Hpre Hr Hov.
  - cbn [app applyFix_loop]. rewrite Hr. cbn [bind]. rewrite Hov. reflexivity.
  - cbn [app applyFix_loop]. cbn [make_candidates] in Hpre.
    destruct (make_candidate this r0) as [c0|e]; cbn [bind] in *;
      [|discriminate].
    destruct (existsb (overlaps c0) (_replacements this)); [reflexivity|].
    destruct (make_candidates this pre) as [cs'|e] eqn:Hcs';
      cbn [bind] in Hpre; [|discriminate].
    eapply IH; eauto.
Qed.

(** The loop runs to its end exactly on candidates that all resolve and
    overlap no accepted one, and then holds them in the given order. *)
Lemma applyFix_loop_accepts (reps : list Replacement.t) :
  forall acc cs,
    make_candidates this reps = Ok cs ->
    Forall (fun c => existsb (overlaps c) (_replacements this) = false) cs ->
    applyFix_loop this reps acc = Ok (Some (acc ++ cs)).
Proof.
  induction reps as [|r reps IH]; intros acc cs Hcs Hfree;
    cbn [make_candidates applyFix_loop] in *.
  - inversion Hcs; subst. rewrite app_nil_r. reflexivity.
  - destruct (make_candidate this r) as [c|e]; cbn [bind] in *;
      [|discriminate].
    destruct (make_candidates this reps) as [cs'|e]; cbn [bind] in Hcs;
      [|discriminate].
    inversion Hcs; subst. inversion Hfree as [|? ? Hc Hrest]; subst.
    rewrite Hc, (IH (acc ++ [c]) cs' eq_refl Hrest), <- app_assoc.
    reflexivity.
Qed.

Lemma applyFix_loop_accepted (reps : list Replacement.t) :
  forall acc out,
    applyFix_loop this reps acc = Ok (Some out) ->
    exists cs,
      out = acc ++ cs
      /\ make_candidates this reps = Ok cs
      /\ Forall (fun c => existsb (overlaps c) (_replacements this) = false) cs.
Proof.
  induction reps as [|r reps IH]; intros acc out Hloop;
    cbn [make_candidates applyFix_loop] in *.
  - inversion Hloop; subst. exists []. rewrite app_nil_r. repeat split.
    constructor.
  - destruct (make_candidate this r) as [c|e]; cbn [bind] in *;
      [|discriminate].
    destruct (existsb (overlaps c) (_replacements this)) eqn:Hc;
      [discriminate|].
    destruct (IH _ _ Hloop) as (cs & -> & Hcs & Hfree).
    exists (c :: cs). rewrite Hcs, <- app_assoc. cbn [bind app].
    repeat split. constructor; assumption.
Qed.

(** C2.  When a replacement of the fix resolves to a candidate that
    overlaps an accepted candidate (the replacements before it
    resolving too), [applyFix] returns [false] and the session, with its
    accepted candidates, is what it was. *)
Theorem applyFix_rejects_atomically
    (item : option Item) (pre post : list Replacement.t)
    (r : Replacement.t) (cs : list Candidate.t) (c e : Candidate.t) :
  fix_replacements item = Some (pre ++ r :: post) ->
  make_candidates this pre = Ok cs ->
  make_candidate this r = Ok c ->
  In e (_replacements this) ->
  overlaps c e = true ->
  applyFix this item = (Ok false, this).
Proof.
  intros Hitem Hpre Hr He Hov. unfold applyFix. rewrite Hitem.
  rewrite (applyFix_loop_rejects pre r post cs [] c Hpre Hr); [reflexivity|].
  apply existsb_exists. exists e. split; assumption.
Qed.

(** C6, as the code has it.  A fix that carries no replacement sequence
    (it is absent, or the object it settles on has no [replacements]) is
    rejected and nothing changes; a fix whose replacement sequence is
    present and empty is accepted, and nothing changes either. *)
Theorem applyFix_without_replacements (item : option Item) :
  (fix_replacements item = None -> applyFix this item = (Ok false, this))
  /\ (fix_replacements item = Some [] -> applyFix this item = (Ok true, this)).
Proof.
  unfold applyFix. split; intros ->; [reflexivity|].
  cbn [applyFix_loop]. rewrite app_nil_r, set_replacements_same.
  reflexivity.
Qed.

(** C10.  Two candidates that meet at an endpoint do not overlap, and a
    fix whose candidates only meet the accepted ones at endpoints is
    accepted whole. *)
Theorem touching_is_no_conflict :
  (forall c e, touching c e -> overlaps c e = false)
  /\ (forall item reps cs,
        fix_replacements item = Some reps ->
        make_candidates this reps = Ok cs ->
        (forall c e, In c cs -> In e (_replacements this) -> touching c e) ->
        applyFix this item
        = (Ok true, set_replacements this (_replacements this ++ cs))).
Proof.
  assert (Htouch : forall c e, touching c e -> overlaps c e = false).
  { intros c e [H|H]; unfold overlaps; rewrite !Z.gtb_ltb.
    - destruct (Z.ltb_spec (Candidate.start e) (Candidate.end_ c));
        [lia | reflexivity].
    - destruct (Z.ltb_spec (Candidate.start c) (Candidate.end_ e));
        [lia | apply andb_false_r]. }
  split; [exact Htouch|].
  intros item reps cs Hitem Hcs Hall. unfold applyFix. rewrite Hitem.
  rewrite (applyFix_loop_accepts reps [] cs Hcs); [reflexivity|].
  apply Forall_forall. intros c Hc.
  destruct (existsb (overlaps c) (_replacements this)) eqn:Hex;
    [|reflexivity].
  apply existsb_exists in Hex. destruct Hex as (e & He & Hov).
  rewrite (Htouch c e (Hall c e Hc He)) in Hov. discriminate.
Qed.

End ApplyFix.

(** The session of the first test accepts its three candidates, in the
    order given. *)
Example test1_accepted :
  map (fun c => (Candidate.start c, Candidate.end_ c, Candidate.precedence c))
      (_replacements (snd (applyFixes (new_AutoFixer test1_text) test1_fixes)))
  = [(5, 5, 5); (3, 3, 7); (5, 5, 7)].
Proof. reflexivity. Qed.

Lemma applyFix_rejects_atomically_witness :
  applyFix sample_session (bare [sample_rep 5 6 1 "Y"; sample_rep 1 3 1 "Z"])
  = (Ok false, sample_session).
Proof.
  eapply (applyFix_rejects_atomically sample_session _
            [sample_rep 5 6 1 "Y"] [] (sample_rep 1 3 1 "Z")).
  - reflexivity.
  - vm_compute. reflexivity.
  - vm_compute. reflexivity.
  - vm_compute. left. reflexivity.
  - vm_compute. reflexivity.
Defined.

Lemma applyFix_without_replacements_witness :
  applyFix sample_session None = (Ok false, sample_session)
  /\ applyFix sample_session (bare []) = (Ok true, sample_session).
Proof.
  split.
  - apply (proj1 (applyFix_without_replacements sample_session None)).
    reflexivity.
  - apply (proj2 (applyFix_without_replacements sample_session (bare []))).
    reflexivity.
Defined.

(** C6, as the claim has it: a fix with an empty replacement sequence is
    accepted. *)
Lemma applyFix_empty_sequence_counterexample :
  fix_replacements (bare []) = Some []
  /\ fst (applyFix (new_AutoFixer sample_text) (bare [])) = Ok true
  /\ fst (applyFix (new_AutoFixer sample_text) (bare [])) <> Ok false.
Proof. repeat split. discriminate. Qed.

Lemma touching_is_no_conflict_witness :
  (forall c e,
      In c (_replacements (snd (applyFix (new_AutoFixer sample_text)
                                   (bare [sample_rep 5 7 1 "Y"])))) ->
      In e (_replacements sample_session) ->
      overlaps c e = false)
  /\ fst (applyFix sample_session
            (bare [sample_rep 5 7 1 "Y"; sample_rep 1 2 1 "Z";
                   sample_rep 2 2 1 "W"]))
     = Ok true.
Proof.
  split.
  - intros c e Hc He.
    apply (proj1 (touching_is_no_conflict sample_session) c e).
    vm_compute in Hc, He.
    destruct Hc as [<-|[]], He as [<-|[]]. right. reflexivity.
  - erewrite (proj2 (touching_is_no_conflict sample_session)
                (bare [sample_rep 5 7 1 "Y"; sample_rep 1 2 1 "Z";
                       sample_rep 2 2 1 "W"])).
    + reflexivity.
    + reflexivity.
    + vm_compute. reflexivity.
    + intros c e Hc He. vm_compute in Hc, He.
      destruct He as [<-|[]].
      destruct Hc as [<-|[<-|[<-|[]]]];
        [right; reflexivity | left; reflexivity | left; reflexivity].
Defined.

(* ================================================================= *)
(** ** The accepted candidates of a reachable session *)

Section Sorting.

Context {A : Type}.
Variable cmp : A -> A -> Z.

Lemma sort_insert_perm (x : A) (l : list A) :
  Permutation (x :: l) (sort_insert cmp x l).
Proof.
  induction l as [|y l IH]; cbn [sort_insert]; [reflexivity|].
  destruct (cmp x y <=? 0); [reflexivity|].
  rewrite perm_swap. constructor. exact IH.
Qed.

Lemma sort_perm (l : list A) : Permutation l (sort cmp l).
Proof.
  induction l as [|x l IH]; cbn [sort]; [constructor|].
  rewrite <- sort_insert_perm. constructor. exact IH.
Qed.

(** The comparator puts one of any two elements first. *)
Hypothesis cmp_total : forall x y, 0 < cmp x y -> cmp y x <= 0.

Lemma sort_insert_sorted (x : A) (l : list A) :
  Sorted (in_order cmp) l -> Sorted (in_order cmp) (sort_insert cmp x l).
Proof.
  induction l as [|y l IH]; intros Hl; cbn [sort_insert].
  - repeat constructor.
  - destruct (Z.leb_spec (cmp x y) 0) as [Hxy|Hxy].
    + constructor; [exact Hl | constructor; exact Hxy].
    + inversion Hl as [|? ? Hl' Hhd]; subst.
      constructor; [apply IH; exact Hl'|].
      destruct l as [|z l]; cbn [sort_insert].
      * constructor. apply cmp_total. exact Hxy.
      * destruct (cmp x z <=? 0); constructor.
        -- apply cmp_total. exact Hxy.
        -- inversion Hhd; assumption.
Qed.

Lemma sort_sorted (l : list A) : Sorted (in_order cmp) (sort cmp l).
Proof.
  induction l as [|x l IH]; cbn [sort]; [constructor|].
  apply sort_insert_sorted. exact IH.
Qed.

(** Sorting leaves an array that is in order as it is. *)
Lemma sort_of_sorted (l : list A) : Sorted (in_order cmp) l -> sort cmp l = l.
Proof.
  induction l as [|x l IH]; intros Hl; cbn [sort]; [reflexivity|].
  inversion Hl as [|? ? Hl' Hhd]; subst. rewrite (IH Hl').
  destruct l as [|y l]; cbn [sort_insert]; [reflexivity|].
  inversion Hhd as [|? ? Hxy]; subst. unfold in_order in Hxy.
  destruct (Z.leb_spec (cmp x y) 0); [reflexivity | lia].
Qed.

Lemma sort_idempotent (l : list A) : sort cmp (sort cmp l) = sort cmp l.
Proof. apply sort_of_sorted, sort_sorted. Qed.

End Sorting.

Lemma by_precedence_total (x y : Candidate.t) :
  0 < by_precedence x y -> by_precedence y x <= 0.
Proof. unfold by_precedence. lia. Qed.

Section Reachable.

Lemma ForallOrdPairs_snoc {A : Type} (R : A -> A -> Prop) (l : list A) (x : A) :
  ForallOrdPairs R l -> Forall (fun y => R y x) l ->
  ForallOrdPairs R (l ++ [x]).
Proof.
  induction 1 as [|y l Hy Hl IH]; intros Hx; cbn [app].
  - repeat constructor.
  - inversion Hx as [|? ? Hyx Hlx]; subst.
    constructor; [|apply IH; exact Hlx].
    apply Forall_app. split; [exact Hy | constructor; [exact Hyx | constructor]].
Qed.

(** One [applyFix] either changes nothing and admits nothing, or appends
    one group that overlaps no accepted candidate. *)
Lemma applyFix_cases (this : AutoFixer) (item : option Item) :
  (snd (applyFix this item) = this /\ admitted this item = []
   /\ fst (applyFix this item) <> Ok true)
  \/ (exists cs,
        applyFix this item
        = (Ok true, set_replacements this (_replacements this ++ cs))
        /\ admitted this item = [cs]
        /\ disjoint_groups (_replacements this) cs).
Proof.
  unfold admitted, applyFix.
  destruct (fix_replacements item) as [reps|];
    [|left; repeat split; discriminate].
  destruct (applyFix_loop this reps []) as [[out|]|e] eqn:Hloop;
    [|left; repeat split; discriminate ..].
  right. destruct (applyFix_loop_accepted this reps [] out Hloop)
    as (cs & -> & _ & Hfree).
  exists cs. cbn [app _replacements set_replacements].
  rewrite skipn_app, skipn_all, Nat.sub_diag. cbn [app skipn].
  repeat split. intros c d Hc Hd.
  rewrite Forall_forall in Hfree. specialize (Hfree d Hd).
  rewrite overlaps_sym.
  destruct (overlaps d c) eqn:Hov; [|reflexivity].
  assert (existsb (overlaps d) (_replacements this) = true)
    by (apply existsb_exists; exists c; split; assumption).
  congruence.
Qed.

Lemma grouped_applyFix (file : str) (this : AutoFixer)
    (groups : list (list Candidate.t)) (item : option Item) :
  grouped file this groups ->
  grouped file (snd (applyFix this item)) (groups ++ admitted this item).
Proof.
  intros (Hfile & Hperm & Hpairs).
  destruct (applyFix_cases this item) as [(-> & -> & _)|(cs & -> & -> & Hcs)].
  - rewrite app_nil_r. repeat split; assumption.
  - cbn [snd]. repeat split.
    + exact Hfile.
    + cbn [_replacements set_replacements].
      rewrite concat_app. cbn [List.concat]. rewrite app_nil_r.
      apply Permutation_app_tail. exact Hperm.
    + apply ForallOrdPairs_snoc; [exact Hpairs|].
      apply Forall_forall. intros g Hg c d Hc Hd.
      apply Hcs; [|exact Hd].
      apply (Permutation_in c (Permutation_sym Hperm)).
      apply in_concat. exists g. split; assumption.
Qed.

Lemma grouped_applyFixes_loop (file : str) (fixlist : list (option Item)) :
  forall this groups res,
    grouped file this groups ->
    grouped file (snd (applyFixes_loop this fixlist res))
            (groups ++ admitted_all this fixlist).
Proof.
  induction fixlist as [|f rest IH]; intros this groups res Hg;
    cbn [applyFixes_loop admitted_all].
  - rewrite app_nil_r. exact Hg.
  - pose proof (grouped_applyFix file this groups f Hg) as Hstep.
    destruct (applyFix_cases this f) as [(Hsame & Hadm & Hno)|(cs & Heq & Hadm & _)].
    + rewrite Hadm, app_nil_r in Hstep.
      destruct (applyFix this f) as [[[|]|e] this'] eqn:Happ;
        cbn [fst snd] in *; subst this'.
      * congruence.
      * rewrite Hadm. cbn [app]. apply IH. exact Hg.
      * rewrite app_nil_r. exact Hg.
    + rewrite Heq in *. cbn [snd] in Hstep. rewrite app_assoc.
      apply IH. exact Hstep.
Qed.

Lemma grouped_sorted (file : str) (this : AutoFixer)
    (groups : list (list Candidate.t)) :
  grouped file this groups ->
  grouped file
    (set_replacements this (sort by_precedence (_replacements this)))
    groups.
Proof.
  intros (Hfile & Hperm & Hpairs). repeat split; try assumption.
  cbn [_replacements set_replacements].
  rewrite <- Hperm. apply Permutation_sym, sort_perm.
Qed.

Lemma getSnippet_session (this : AutoFixer) :
  snd (getSnippet this)
  = set_replacements this (sort by_precedence (_replacements this)).
Proof.
  unfold getSnippet. destruct (_replacements this) as [|c l] eqn:E.
  - cbn [sort snd]. rewrite <- E. symmetry. apply set_replacements_same.
  - destruct (sort by_precedence (c :: l)); reflexivity.
Qed.

(** C3, as the code has it.  In every session reached by [applyFix],
    [applyFixes], [reset] and the rendering calls, the accepted
    candidates are those admitted by the accepted fixes since the last
    [reset], and no candidate of one fix overlaps a candidate of another
    fix. *)
Theorem accepted_disjoint_across_fixes
    (file : str) (this : AutoFixer) (groups : list (list Candidate.t)) :
  reachable file this groups ->
  _file this = file
  /\ Permutation (_replacements this) (List.concat groups)
  /\ ForallOrdPairs disjoint_groups groups.
Proof.
  induction 1 as [|this groups item _ IH|this groups fixlist _ IH
                 |this groups _ IH|this groups _ IH|this groups _ IH].
  - repeat split; constructor.
  - apply grouped_applyFix. exact IH.
  - apply grouped_applyFixes_loop. exact IH.
  - destruct IH as (Hfile & _). repeat split; [exact Hfile | constructor..].
  - apply (grouped_sorted file this groups IH).
  - rewrite getSnippet_session. apply (grouped_sorted file this groups IH).
Qed.

End Reachable.

Lemma accepted_disjoint_across_fixes_witness :
  let this := snd (applyFixes (new_AutoFixer test1_text) test1_fixes) in
  let groups := admitted_all (new_AutoFixer test1_text) test1_fixes in
  _file this = test1_text
  /\ Permutation (_replacements this) (List.concat groups)
  /\ ForallOrdPairs disjoint_groups groups.
Proof.
  cbv zeta.
  apply (accepted_disjoint_across_fixes test1_text
           (snd (applyFixes (new_AutoFixer test1_text) test1_fixes))
           ([] ++ admitted_all (new_AutoFixer test1_text) test1_fixes)).
  apply reach_applyFixes. apply reach_new.
Defined.

(** C3, as the claim has it: one fix whose two replacements overlap each
    other is accepted on a fresh session, which then holds two distinct
    overlapping candidates. *)
Lemma accepted_overlap_counterexample :
  let fix2 := bare [sample_rep 1 4 1 "X"; sample_rep 2 5 1 "Y"] in
  let this := snd (applyFix (new_AutoFixer sample_text) fix2) in
  reachable sample_text this ([] ++ admitted (new_AutoFixer sample_text) fix2)
  /\ exists c d,
      nth_error (_replacements this) 0 = Some c
      /\ nth_error (_replacements this) 1 = Some d
      /\ (Candidate.start c, Candidate.end_ c) = (0, 3)
      /\ (Candidate.start d, Candidate.end_ d) = (1, 4)
      /\ overlaps c d = true.
Proof.
  cbv zeta. split.
  - apply reach_applyFix. apply reach_new.
  - eexists. eexists. repeat split.
Qed.

(* ================================================================= *)
(** ** Rendering twice *)

Section Rendering.

(** The session that either rendering call leaves behind. *)
Lemma getResult_session (this : AutoFixer) :
  snd (getResult this)
  = set_replacements this (sort by_precedence (_replacements this)).
Proof. reflexivity. Qed.

Lemma sorted_twice (this : AutoFixer) :
  sort by_precedence (sort by_precedence (_replacements this))
  = sort by_precedence (_replacements this).
Proof. apply sort_idempotent, by_precedence_total. Qed.

(** C7.  Two [getResult] calls in a row, with nothing in between, have
    the same outcome: the same text, or the same exception.  Each call
    starts from [_file] and a new tree. *)
Theorem getResult_idempotent (this : AutoFixer) :
  fst (getResult (snd (getResult this))) = fst (getResult this).
Proof.
  unfold getResult. cbn [fst snd _replacements _file set_replacements].
  rewrite sorted_twice. reflexivity.
Qed.

(** C9, as the code has it.  Either rendering call leaves the text alone
    and keeps the accepted candidates, but sorts them in place by
    descending precedence, candidates of equal precedence keeping their
    order; a rendering call on the session so left changes nothing. *)
Theorem rendering_sorts_accepted (this : AutoFixer) :
  let rendered :=
    set_replacements this (sort by_precedence (_replacements this)) in
  snd (getResult this) = rendered
  /\ snd (getSnippet this) = rendered
  /\ _file rendered = _file this
  /\ Permutation (_replacements this) (_replacements rendered)
  /\ Sorted (in_order by_precedence) (_replacements rendered)
  /\ snd (getResult rendered) = rendered
  /\ snd (getSnippet rendered) = rendered.
Proof.
  cbv zeta. split; [reflexivity|]. split; [apply getSnippet_session|].
  split; [reflexivity|]. cbn [_replacements set_replacements].
  split; [apply sort_perm|].
  split; [apply sort_sorted, by_precedence_total|].
  rewrite getSnippet_session, getResult_session.
  cbn [_replacements set_replacements _file]. rewrite sorted_twice.
  split; reflexivity.
Qed.

End Rendering.

(** C9, as the claim has it: the session of the first test holds its
    candidates in the order of precedences 5, 7, 7, and after either
    rendering call in the order 7, 7, 5. *)
Lemma rendering_reorders_counterexample :
  let this := snd (applyFixes (new_AutoFixer test1_text) test1_fixes) in
  reachable test1_text this
            ([] ++ admitted_all (new_AutoFixer test1_text) test1_fixes)
  /\ map Candidate.precedence (_replacements this) = [5; 7; 7]
  /\ map Candidate.precedence (_replacements (snd (getResult this))) = [7; 7; 5]
  /\ map Candidate.precedence (_replacements (snd (getSnippet this))) = [7; 7; 5]
  /\ _replacements (snd (getResult this)) <> _replacements this
  /\ _replacements (snd (getSnippet this)) <> _replacements this.
Proof.
  cbv zeta. split; [apply reach_applyFixes; apply reach_new|].
  repeat split; intros H; vm_compute in H; discriminate H.
Qed.

(** The tests of [autofixTest] on the embedding.  In the first, the
    candidate of precedence 5 is spliced first and shifts the closing
    quote, which has the same start, past it; the test expects the quote
    in front of [ || exit]. *)
Example test1_result :
  fst (getResult (snd (applyFixes (new_AutoFixer test1_text) test1_fixes)))
  = Ok (lit "cd " ++ dquote ++ lit "$1 || exit" ++ dquote)%list.
Proof. reflexivity. Qed.

Example test2_result :
  fst (getResult (snd (applyFixes (new_AutoFixer test2_text) test2_fixes)))
  = Ok test2_expected.
Proof. reflexivity. Qed.

Example test3_snippet :
  fst (getSnippet (snd (applyFix (new_AutoFixer test3_text) test3_fix)))
  = Ok (lit "cd foo || exit" ++ [newline])%list.
Proof. reflexivity. Qed.

(* ================================================================= *)
(** ** The length of the rendered text *)

Section Substring.

Lemma len_substring (s : str) (a b : Z) :
  len (substring s a b)
  = Z.max (clamp (len s) a) (clamp (len s) b)
    - Z.min (clamp (len s) a) (clamp (len s) b).
Proof.
  unfold substring, len. rewrite length_firstn, length_skipn.
  unfold clamp. lia.
Qed.

Lemma len_substring_prefix (s : str) (a : Z) :
  len (substring s 0 a) = clamp (len s) a.
Proof.
  rewrite len_substring. pose proof (len_nonneg s). unfold clamp. lia.
Qed.

Lemma len_substring_from (s : str) (b : Z) :
  len (substring_from s b) = len s - clamp (len s) b.
Proof.
  unfold substring_from. rewrite len_substring.
  pose proof (len_nonneg s). unfold clamp. lia.
Qed.

(** The length after one splice. *)
Lemma len_splice (file text : str) (from to : Z) :
  len (substring file 0 from ++ text ++ substring_from file to)
  = len file + len text - (clamp (len file) to - clamp (len file) from).
Proof.
  rewrite !len_app, len_substring_prefix, len_substring_from. lia.
Qed.

End Substring.

Section Sums.

Variable g : Candidate.t -> Z.

Lemma sum_of_cons (c : Candidate.t) (l : list Candidate.t) :
  sum_of g (c :: l) = g c + sum_of g l.
Proof. reflexivity. Qed.

Lemma sum_of_app (l1 l2 : list Candidate.t) :
  sum_of g (l1 ++ l2) = sum_of g l1 + sum_of g l2.
Proof.
  induction l1 as [|c l1 IH]; [reflexivity|].
  cbn [app]. rewrite !sum_of_cons, IH. lia.
Qed.

Lemma sum_of_perm (l1 l2 : list Candidate.t) :
  Permutation l1 l2 -> sum_of g l1 = sum_of g l2.
Proof.
  induction 1 as [|c l1 l2 _ IH|c d l|l1 l2 l3 _ IH1 _ IH2];
    rewrite ?sum_of_cons; lia.
Qed.

Lemma sum_of_filter (f : Candidate.t -> bool) (l : list Candidate.t) :
  sum_of g l
  = sum_of g (filter f l) + sum_of g (filter (fun c => negb (f c)) l).
Proof.
  induction l as [|c l IH]; [reflexivity|].
  cbn [filter]. destruct (f c); cbn [negb]; rewrite !sum_of_cons; lia.
Qed.

Lemma sum_of_le (h : Candidate.t -> Z) (l : list Candidate.t) :
  (forall c, g c <= h c) -> sum_of g l <= sum_of h l.
Proof.
  intros Hgh. induction l as [|c l IH]; [reflexivity|].
  unfold sum_of in *. cbn [map fold_right]. specialize (Hgh c). lia.
Qed.

End Sums.

Section Pairs.

Context {A : Type}.
Variable R : A -> A -> Prop.

Lemma ForallOrdPairs_filter (f : A -> bool) (l : list A) :
  ForallOrdPairs R l -> ForallOrdPairs R (filter f l).
Proof.
  induction 1 as [|x l Hx _ IH]; cbn [filter]; [constructor|].
  destruct (f x); [|exact IH]. constructor; [|exact IH].
  rewrite Forall_forall in *. intros y Hy. apply filter_In in Hy.
  apply Hx. tauto.
Qed.

Lemma ForallOrdPairs_suffix (l1 l2 : list A) :
  ForallOrdPairs R (l1 ++ l2) -> ForallOrdPairs R l2.
Proof.
  induction l1 as [|x l1 IH]; cbn [app]; [tauto|].
  intros H. inversion H; subst. apply IH. assumption.
Qed.

Hypothesis R_sym : forall x y, R x y -> R y x.

Lemma ForallOrdPairs_perm (l1 l2 : list A) :
  Permutation l1 l2 -> ForallOrdPairs R l1 -> ForallOrdPairs R l2.
Proof.
  induction 1 as [|x l1 l2 Hp IH|x y l|l1 l2 l3 _ IH1 _ IH2]; intros H.
  - exact H.
  - inversion H as [|? ? Hx Hl]; subst. constructor; [|apply IH; exact Hl].
    rewrite <- Hp. exact Hx.
  - inversion H as [|? ? Hy Hxl]; subst.
    inversion Hxl as [|? ? Hx Hl]; subst.
    inversion Hy as [|? ? Hyx Hyl]; subst.
    constructor; [constructor; [apply R_sym; exact Hyx | exact Hx]|].
    constructor; assumption.
  - auto.
Qed.

End Pairs.

Section Ranges.

Lemma disjoint_iff (c d : Candidate.t) :
  disjoint c d
  <-> ~ (Candidate.start d < Candidate.end_ c
         /\ Candidate.start c < Candidate.end_ d).
Proof.
  unfold disjoint, overlaps. rewrite !Z.gtb_ltb.
  destruct (Z.ltb_spec (Candidate.start d) (Candidate.end_ c)),
    (Z.ltb_spec (Candidate.start c) (Candidate.end_ d));
    cbn [andb]; split; intros; try lia; try reflexivity; try discriminate.
Qed.

Lemma separate_sym (c d : Candidate.t) : separate c d -> separate d c.
Proof.
  unfold separate. rewrite !disjoint_iff. tauto.
Qed.

(** Ranges that lie between [a] and [b] and are disjoint two by two
    cover at most [b - a] characters together. *)
Lemma total_width_bound (n : nat) :
  forall (l : list Candidate.t) (a b : Z),
    (List.length l <= n)%nat -> a <= b ->
    Forall (within a b) l -> ForallOrdPairs disjoint l ->
    total_width l <= b - a.
Proof.
  induction n as [|n IH]; intros l a b Hn Hab Hin Hdis.
  - destruct l; [cbn; lia | cbn in Hn; lia].
  - destruct l as [|c l]; [cbn; lia|].
    inversion Hin as [|? ? Hc Hl]; subst.
    inversion Hdis as [|? ? Hcl Hll]; subst.
    cbn [List.length] in Hn. destruct Hc as (Hc1 & Hc2 & Hc3).
    set (f := fun j => Candidate.end_ j <=? Candidate.start c).
    unfold total_width. rewrite sum_of_cons, (sum_of_filter width f l).
    assert (Hleft : total_width (filter f l) <= Candidate.start c - a).
    { apply IH.
      - pose proof (filter_length_le f l). lia.
      - lia.
      - rewrite Forall_forall in *. intros j Hj. apply filter_In in Hj.
        destruct Hj as (Hj & Hf). unfold f in Hf. apply Z.leb_le in Hf.
        destruct (Hl j Hj) as (? & ? & ?). unfold within. lia.
      - apply ForallOrdPairs_filter. exact Hll. }
    assert (Hright : total_width (filter (fun j => negb (f j)) l)
                     <= b - Candidate.end_ c).
    { apply IH.
      - pose proof (filter_length_le (fun j => negb (f j)) l). lia.
      - lia.
      - rewrite Forall_forall in *. intros j Hj. apply filter_In in Hj.
        destruct Hj as (Hj & Hf). unfold f in Hf.
        apply negb_true_iff, Z.leb_gt in Hf.
        destruct (Hl j Hj) as (? & ? & ?).
        pose proof (proj1 (disjoint_iff c j) (Hcl j Hj)). unfold within. lia.
      - apply ForallOrdPairs_filter. exact Hll. }
    unfold total_width in Hleft, Hright. unfold width at 1. lia.
Qed.

Lemma net_delta_lower (l : list Candidate.t) :
  - total_width l <= total_delta l.
Proof.
  unfold total_width, total_delta.
  induction l as [|c l IH]; [cbn; lia|].
  rewrite !sum_of_cons. unfold net_delta at 1.
  pose proof (len_nonneg (Candidate.text c)). lia.
Qed.

Lemma recognised_anchor (c : Candidate.t) :
  recognised c ->
  insertion_point c = Ok (anchor c)
  /\ (anchor c = Candidate.start c \/ anchor c = Candidate.end_ c + 1).
Proof.
  unfold anchor, insertion_point. intros [H|H]; rewrite H; cbn; tauto.
Qed.

(** What the tree answers after the splices of [pre]. *)
Lemma deltas_upto_shift_ops (pre : list Candidate.t) (p : Z) :
  deltas_upto (map shift_op pre) p
  = total_delta (filter (fun c => anchor c <=? p) pre).
Proof.
  unfold deltas_upto, total_delta, sum_of.
  induction pre as [|c pre IH]; [reflexivity|].
  change (map shift_op (c :: pre)) with (shift_op c :: map shift_op pre).
  cbn [filter]. change (fst (shift_op c)) with (anchor c).
  destruct (anchor c <=? p); [|exact IH].
  cbn [map fold_right]. change (snd (shift_op c)) with (net_delta c).
  rewrite IH. reflexivity.
Qed.

(** No anchor between [s] and [e]: the two ends are shifted alike. *)
Lemma deltas_upto_same (pre : list Candidate.t) (s e : Z) :
  s <= e ->
  Forall (fun j => ~ (s < anchor j <= e)) pre ->
  deltas_upto (map shift_op pre) e = deltas_upto (map shift_op pre) s.
Proof.
  intros Hse Hpre. rewrite !deltas_upto_shift_ops. f_equal.
  induction Hpre as [|j pre Hj _ IH]; [reflexivity|].
  cbn [filter]. rewrite IH.
  destruct (Z.leb_spec (anchor j) e), (Z.leb_spec (anchor j) s);
    try reflexivity; lia.
Qed.

End Ranges.

Section LengthLaw.

Import PrefixSumTree.

Lemma ForallOrdPairs_separate_disjoint (l : list Candidate.t) :
  ForallOrdPairs separate l -> ForallOrdPairs disjoint l.
Proof.
  induction 1 as [|c l Hc _ IH]; constructor; [|exact IH].
  eapply Forall_impl; [|exact Hc]. intros d Hd. apply Hd.
Qed.

Lemma deltas_upto_cons (a d : Z) (ops : list (Z * Z)) (p : Z) :
  deltas_upto ((a, d) :: ops) p
  = (if a <=? p then d else 0) + deltas_upto ops p.
Proof.
  unfold deltas_upto. cbn [filter fst].
  destruct (a <=? p); cbn [map fold_right snd]; lia.
Qed.

Variable L : Z.

(** The candidates spliced so far that shift the start of a wider
    candidate [k] lie before it, and the others lie after it. *)
Lemma shifting_ranges_before (pre : list Candidate.t) (k : Candidate.t) :
  Candidate.start k < Candidate.end_ k ->
  Forall (within 0 L) pre -> Forall recognised pre ->
  Forall (separate k) pre ->
  Forall (within 0 (Candidate.start k))
         (filter (fun c => anchor c <=? Candidate.start k) pre).
Proof.
  intros Hk Hin Hrec Hsep. rewrite Forall_forall in *.
  intros j Hj. apply filter_In in Hj. destruct Hj as (Hj & Ha).
  apply Z.leb_le in Ha.
  destruct (Hin j Hj) as (? & ? & ?).
  destruct (recognised_anchor j (Hrec j Hj)) as (_ & Hanchor).
  destruct (Hsep j Hj) as (Hd & _ & _). apply disjoint_iff in Hd.
  unfold within. lia.
Qed.

Lemma other_ranges_after (pre : list Candidate.t) (k : Candidate.t) :
  Candidate.start k < Candidate.end_ k ->
  Forall (within 0 L) pre -> Forall recognised pre ->
  Forall (separate k) pre ->
  Forall (within (Candidate.end_ k) L)
         (filter (fun c => negb (anchor c <=? Candidate.start k)) pre).
Proof.
  intros Hk Hin Hrec Hsep. rewrite Forall_forall in *.
  intros j Hj. apply filter_In in Hj. destruct Hj as (Hj & Ha).
  apply negb_true_iff, Z.leb_gt in Ha.
  destruct (Hin j Hj) as (? & ? & ?).
  destruct (recognised_anchor j (Hrec j Hj)) as (_ & Hanchor).
  destruct (Hsep j Hj) as (Hd & Hapart & _). apply disjoint_iff in Hd.
  unfold anchored_apart in Hapart. unfold within. lia.
Qed.

(** One splice: the text changes by the net delta of the candidate, and
    the tree records that delta at the candidate's anchor. *)
Lemma applyReplacement_length
    (file : str) (tree : t) (pre : list Candidate.t) (k : Candidate.t) :
  len file = L + total_delta pre ->
  (forall p, lookup tree p = deltas_upto (map shift_op pre) p) ->
  Forall (within 0 L) (k :: pre) ->
  Forall recognised (k :: pre) ->
  ForallOrdPairs separate (k :: pre) ->
  exists file' tree',
    applyReplacement file tree k = Ok (file', tree')
    /\ len file' = L + total_delta (k :: pre)
    /\ (forall p, lookup tree' p = deltas_upto (map shift_op (k :: pre)) p).
Proof.
  intros Hlen Hlook Hin Hrec Hsep.
  inversion Hin as [|? ? Hk Hpre_in]; subst.
  inversion Hrec as [|? ? Hk_rec Hpre_rec]; subst.
  inversion Hsep as [|? ? Hk_sep Hpre_sep]; subst.
  destruct (recognised_anchor k Hk_rec) as (Hpoint & _).
  destruct Hk as (Hk0 & Hk1 & Hk2).
  unfold applyReplacement. rewrite Hpoint. cbn [bind].
  eexists. eexists. split; [reflexivity|].
  rewrite !Hlook.
  assert (Hsame : deltas_upto (map shift_op pre) (Candidate.end_ k)
                  = deltas_upto (map shift_op pre) (Candidate.start k)).
  { apply deltas_upto_same; [exact Hk1|].
    eapply Forall_impl; [|exact Hk_sep]. intros j (_ & Hj & _). exact Hj. }
  rewrite Hsame.
  assert (Hdelta :
            len (Candidate.text k)
            - (Candidate.end_ k + deltas_upto (map shift_op pre) (Candidate.start k)
               - (Candidate.start k
                  + deltas_upto (map shift_op pre) (Candidate.start k)))
            = net_delta k)
    by (unfold net_delta, width; lia).
  rewrite Hdelta. split.
  - rewrite len_splice. unfold total_delta. rewrite sum_of_cons.
    fold (total_delta pre). unfold net_delta, width.
    destruct (Z.eq_dec (Candidate.start k) (Candidate.end_ k)) as [Heq|Hne].
    + rewrite Heq. lia.
    + assert (Hwide : Candidate.start k < Candidate.end_ k) by lia.
      pose proof (ForallOrdPairs_separate_disjoint pre Hpre_sep) as Hdis.
      set (f := fun c => anchor c <=? Candidate.start k) in *.
      pose proof (deltas_upto_shift_ops pre (Candidate.start k)) as Hshift.
      fold f in Hshift.
      pose proof (sum_of_filter net_delta f pre) as Hsplit.
      fold (total_delta pre) (total_delta (filter f pre))
        (total_delta (filter (fun c => negb (f c)) pre)) in Hsplit.
      pose proof (net_delta_lower (filter f pre)) as Hlow1.
      pose proof (net_delta_lower (filter (fun c => negb (f c)) pre)) as Hlow2.
      assert (Hw1 : total_width (filter f pre) <= Candidate.start k - 0).
      { apply (total_width_bound (List.length (filter f pre)));
          [lia | lia | | apply ForallOrdPairs_filter; exact Hdis].
        apply shifting_ranges_before; assumption. }
      assert (Hw2 : total_width (filter (fun c => negb (f c)) pre)
                    <= L - Candidate.end_ k).
      { apply (total_width_bound
                 (List.length (filter (fun c => negb (f c)) pre)));
          [lia | lia | | apply ForallOrdPairs_filter; exact Hdis].
        apply other_ranges_after; assumption. }
      unfold clamp. lia.
  - intros p. rewrite lookup_insert, Hlook.
    change (map shift_op (k :: pre)) with (shift_op k :: map shift_op pre).
    unfold shift_op at 2. rewrite deltas_upto_cons. lia.
Qed.

(** The loop of [getResult] on the candidates [post], after those of
    [pre]. *)
Lemma applyReplacements_length (post : list Candidate.t) :
  forall (pre : list Candidate.t) (file : str) (tree : t),
    len file = L + total_delta pre ->
    (forall p, lookup tree p = deltas_upto (map shift_op pre) p) ->
    Forall (within 0 L) (rev post ++ pre) ->
    Forall recognised (rev post ++ pre) ->
    ForallOrdPairs separate (rev post ++ pre) ->
    exists file' tree',
      applyReplacements post file tree = Ok (file', tree')
      /\ len file' = L + total_delta (rev post ++ pre).
Proof.
  induction post as [|k post IH]; intros pre file tree Hlen Hlook Hin Hrec Hsep.
  - exists file, tree. split; [reflexivity | exact Hlen].
  - cbn [rev] in Hin, Hrec, Hsep |- *. rewrite <- app_assoc in Hin, Hrec, Hsep.
    rewrite <- app_assoc. cbn [app] in Hin, Hrec, Hsep |- *.
    destruct (applyReplacement_length file tree pre k Hlen Hlook)
      as (file1 & tree1 & Hstep & Hlen1 & Hlook1).
    + apply Forall_app in Hin. apply Hin.
    + apply Forall_app in Hrec. apply Hrec.
    + apply (ForallOrdPairs_suffix _ _ _ Hsep).
    + cbn [applyReplacements]. rewrite Hstep. cbn [bind fst snd].
      apply (IH (k :: pre) file1 tree1 Hlen1 Hlook1 Hin Hrec Hsep).
Qed.

End LengthLaw.

(** C4, as the code has it.  When the accepted candidates are ranges of
    the text with their ends in order and with insertion points the code
    knows, when no two of them overlap, and when no anchor of one lies
    inside or at the end of the range of another, [getResult] returns a
    text whose length is that of the original plus the sum over the
    accepted candidates of (length of the replacement - length of the
    replaced range). *)
Theorem getResult_length (this : AutoFixer) :
  Forall (in_text (_file this)) (_replacements this) ->
  Forall recognised (_replacements this) ->
  ForallOrdPairs separate (_replacements this) ->
  exists out,
    fst (getResult this) = Ok out
    /\ len out = len (_file this) + total_delta (_replacements this).
Proof.
  intros Hin Hrec Hsep. unfold getResult. cbn [fst _file set_replacements].
  pose proof (sort_perm by_precedence (_replacements this)) as Hperm.
  set (sorted := sort by_precedence (_replacements this)) in *.
  destruct (applyReplacements_length (len (_file this)) (rev sorted) []
              (_file this) PrefixSumTree.new) as (out & tree & Hrun & Hlen).
  - cbn. lia.
  - intros p. apply lookup_new.
  - rewrite rev_involutive, app_nil_r. rewrite <- Hperm. exact Hin.
  - rewrite rev_involutive, app_nil_r. rewrite <- Hperm. exact Hrec.
  - rewrite rev_involutive, app_nil_r.
    apply (ForallOrdPairs_perm separate separate_sym _ _ Hperm Hsep).
  - exists out. rewrite Hrun. cbn [bind fst]. split; [reflexivity|].
    rewrite Hlen, rev_involutive, app_nil_r. unfold total_delta.
    rewrite (sum_of_perm net_delta _ _ Hperm). reflexivity.
Qed.

Lemma getResult_length_witness :
  exists out,
    fst (getResult sample_session2) = Ok out
    /\ len out
       = len (_file sample_session2)
         + total_delta (_replacements sample_session2).
Proof.
  apply (getResult_length sample_session2);
    set (l := _replacements sample_session2); vm_compute in l; subst l.
  - constructor; [|constructor; [|constructor]];
      repeat split; vm_compute; discriminate.
  - constructor; [left; reflexivity|].
    constructor; [right; reflexivity | constructor].
  - constructor; [|constructor; constructor].
    constructor; [|constructor].
    split; [reflexivity|].
    split; unfold anchored_apart; vm_compute;
      intros [H1 H2]; (discriminate H1 || (apply H2; reflexivity)).
Defined.

Example sample_session2_result :
  fst (getResult sample_session2) = Ok (lit "aXYZW").
Proof. reflexivity. Qed.

(** C4, as the claim has it: a fresh session accepts the fix whose two
    replacements overlap each other; the text of six characters is
    rendered with four, and the sum of the claim is two. *)
Lemma getResult_length_counterexample :
  let this := snd (applyFix (new_AutoFixer sample_text) sample_self_overlap) in
  reachable sample_text this
            ([] ++ admitted (new_AutoFixer sample_text) sample_self_overlap)
  /\ fst (getResult this) = Ok (lit "XYef")
  /\ len (lit "XYef") = 4
  /\ len (_file this) + total_delta (_replacements this) = 2.
Proof.
  cbv zeta. split; [apply reach_applyFix; apply reach_new|].
  repeat split.
Qed.

(** Disjoint ranges are not enough for the length law: the session
    accepts, from two fixes, the removal of columns 3 to 5 anchored at its
    start and the replacement of columns 1 to 3, whose end is that
    anchor; the second splice then removes nothing. *)
Example getResult_length_needs_anchors :
  let fixes :=
    [ bare [sample_rep 3 5 1 ""]; bare [sample_rep 1 3 2 "xyz"] ] in
  let this := snd (applyFixes (new_AutoFixer sample_text) fixes) in
  ForallOrdPairs disjoint (_replacements this)
  /\ fst (getResult this) = Ok (lit "xyzabef")
  /\ len (_file this) + total_delta (_replacements this) = 5.
Proof.
  cbv zeta. split; [|split; reflexivity].
  set (l := _replacements _). vm_compute in l. subst l.
  repeat constructor.
Qed.

(* ================================================================= *)
(** * Further properties *)

(* ================================================================= *)
(** ** Lines of the text and their offsets *)

Section TextLines.

Lemma split_acc_nonempty (sep : ascii) (s : str) :
  forall cur, split_acc sep cur s <> [].
Proof.
  induction s as [|ch rest IH]; intros cur; cbn [split_acc];
    [discriminate|].
  destruct (Ascii.eqb ch sep); [discriminate | apply IH].
Qed.

Lemma join_cons (sep : ascii) (l : str) (ls : list str) :
  ls <> [] -> join sep (l :: ls) = l ++ sep :: join sep ls.
Proof. destruct ls; [congruence | reflexivity]. Qed.

Lemma join_split_acc (sep : ascii) (s : str) :
  forall cur, join sep (split_acc sep cur s) = rev cur ++ s.
Proof.
  induction s as [|ch rest IH]; intros cur; cbn [split_acc].
  - cbn [join]. rewrite app_nil_r. reflexivity.
  - destruct (Ascii.eqb_spec ch sep) as [->|_].
    + rewrite join_cons by apply split_acc_nonempty. rewrite IH. reflexivity.
    + rewrite IH. cbn [rev]. rewrite <- app_assoc. reflexivity.
Qed.

Lemma split_acc_no_sep (sep : ascii) (s : str) :
  forall cur,
    ~ In sep cur ->
    Forall (fun l => ~ In sep l) (split_acc sep cur s).
Proof.
  induction s as [|ch rest IH]; intros cur Hcur; cbn [split_acc].
  - constructor; [|constructor]. rewrite <- in_rev. exact Hcur.
  - destruct (Ascii.eqb_spec ch sep) as [->|Hne].
    + constructor; [rewrite <- in_rev; exact Hcur|]. apply IH. intros [].
    + apply IH. intros [H|H]; [congruence | exact (Hcur H)].
Qed.

(** X1.  Cutting a text at its newlines loses nothing: joining the lines
    of [split] with the separator gives the text back, there is at least
    one line, and no line holds the separator. *)
Theorem split_join_roundtrip (sep : ascii) (text : str) :
  join sep (split sep text) = text
  /\ split sep text <> []
  /\ Forall (fun l => ~ In sep l) (split sep text).
Proof.
  unfold split. split; [apply join_split_acc|].
  split; [apply split_acc_nonempty|].
  apply split_acc_no_sep. intros [].
Qed.

Lemma getLineOffsets_from_nth (lines : list str) :
  forall (i : nat) (sum : Z),
    (i <= List.length lines)%nat ->
    nth i (getLineOffsets_from sum lines) 0
    = sum + lines_span (firstn i lines).
Proof.
  induction lines as [|l rest IH]; intros i sum Hi.
  - cbn [List.length] in Hi. replace i with 0%nat by lia. cbn. lia.
  - destruct i as [|i]; cbn [getLineOffsets_from nth firstn].
    + cbn. lia.
    + cbn [List.length] in Hi. rewrite IH by lia.
      rewrite lines_span_cons. lia.
Qed.

Lemma lines_span_firstn_mono (ls : list str) :
  forall i j : nat,
    (i <= j)%nat -> lines_span (firstn i ls) <= lines_span (firstn j ls).
Proof.
  induction ls as [|l ls IH]; intros i j Hij.
  - rewrite !firstn_nil. lia.
  - destruct i as [|i], j as [|j]; cbn [firstn]; try lia.
    + pose proof (lines_span_nonneg (l :: firstn j ls)).
      change (lines_span []) with 0. lia.
    + rewrite !lines_span_cons. specialize (IH i j). lia.
Qed.

Lemma lines_span_firstn_S (ls : list str) :
  forall (i : nat) (l : str),
    nth_error ls i = Some l ->
    lines_span (firstn (S i) ls) = lines_span (firstn i ls) + len l + 1.
Proof.
  induction ls as [|l0 ls IH]; intros i l Hi.
  - destruct i; discriminate.
  - destruct i as [|i].
    + cbn in Hi. inversion Hi; subst. cbn [firstn].
      rewrite lines_span_cons. cbn. lia.
    + cbn [nth_error] in Hi.
      change (firstn (S (S i)) (l0 :: ls)) with (l0 :: firstn (S i) ls).
      change (firstn (S i) (l0 :: ls)) with (l0 :: firstn i ls).
      rewrite !lines_span_cons, (IH i l Hi). lia.
Qed.

Lemma lines_span_firstn_all (ls : list str) :
  lines_span (firstn (List.length ls) ls) = lines_span ls.
Proof. rewrite firstn_all. reflexivity. Qed.

(** A line and its terminator end before the table's last entry. *)
Lemma line_inside (ls : list str) (i : nat) (l : str) :
  nth_error ls i = Some l ->
  0 <= lines_span (firstn i ls)
  /\ lines_span (firstn i ls) + len l + 1 <= lines_span ls.
Proof.
  intros Hi. split; [apply lines_span_nonneg|].
  assert (Hlt : (i < List.length ls)%nat)
    by (apply nth_error_Some; congruence).
  pose proof (lines_span_firstn_mono ls (S i) (List.length ls) Hlt) as Hle.
  rewrite lines_span_firstn_all, (lines_span_firstn_S ls i l Hi) in Hle.
  exact Hle.
Qed.

Lemma index_Some {A : Type} (a : list A) (i : Z) (x : A) :
  index a i = Some x ->
  0 <= i /\ nth_error a (Z.to_nat i) = Some x
  /\ i < Z.of_nat (List.length a).
Proof.
  unfold index. destruct (Z.ltb_spec i 0) as [Hneg|Hpos]; [discriminate|].
  intros Hnth.
  assert (Z.to_nat i < List.length a)%nat
    by (apply nth_error_Some; congruence).
  repeat split; [lia | exact Hnth | lia].
Qed.

Lemma index_None {A : Type} (a : list A) (i : Z) :
  index a i = None <-> i < 0 \/ Z.of_nat (List.length a) <= i.
Proof.
  unfold index. destruct (Z.ltb_spec i 0).
  - split; [left; lia | reflexivity].
  - rewrite nth_error_None. lia.
Qed.

Lemma line_start_span (file : str) (lineNo : Z) (l : str) :
  index (split newline file) (lineNo - 1) = Some l ->
  line_start file lineNo
  = lines_span (firstn (Z.to_nat (lineNo - 1)) (split newline file)).
Proof.
  intros Hl. apply index_Some in Hl. destruct Hl as (? & ? & ?).
  unfold line_start, getLineOffsets.
  rewrite getLineOffsets_from_nth by lia. lia.
Qed.

(** The line found at an offset of the joined lines. *)
Lemma join_line_at (sep : ascii) (ls : list str) :
  forall (i : nat) (l : str),
    nth_error ls i = Some l ->
    firstn (List.length l)
           (skipn (Z.to_nat (lines_span (firstn i ls))) (join sep ls))
    = l.
Proof.
  induction ls as [|l0 ls IH]; intros i l Hi.
  - destruct i; discriminate.
  - destruct i as [|i].
    + cbn in Hi. inversion Hi; subst. cbn [firstn lines_span fold_right].
      cbn [Z.to_nat skipn]. destruct ls as [|l1 ls].
      * cbn [join]. apply firstn_all.
      * rewrite join_cons by discriminate.
        rewrite firstn_app, firstn_all, Nat.sub_diag. cbn [firstn].
        apply app_nil_r.
    + cbn [nth_error] in Hi.
      assert (Hne : ls <> []) by (destruct ls; [destruct i|]; discriminate).
      rewrite join_cons by exact Hne. cbn [firstn].
      rewrite lines_span_cons.
      pose proof (lines_span_nonneg (firstn i ls)).
      replace (Z.to_nat (len l0 + 1 + lines_span (firstn i ls)))
        with (List.length l0 + S (Z.to_nat (lines_span (firstn i ls))))%nat
        by (unfold len; lia).
      rewrite skipn_app, (skipn_all2 l0) by lia.
      replace (List.length l0 + S (Z.to_nat (lines_span (firstn i ls)))
               - List.length l0)%nat
        with (S (Z.to_nat (lines_span (firstn i ls)))) by lia.
      cbn [app skipn]. apply IH. exact Hi.
Qed.

(** X2.  The table entry of a line is where the line stands in the text:
    the characters of the text from [_lineOffsets[lineNo - 1]] on, as many
    as the line has, are the line itself. *)
Theorem line_at_its_offset (this : AutoFixer) (lineNo : Z) (l : str) :
  index (_lines this) (lineNo - 1) = Some l ->
  index (_lineOffsets this) (lineNo - 1)
  = Some (line_start (_file this) lineNo)
  /\ substring (_file this) (line_start (_file this) lineNo)
               (line_start (_file this) lineNo + len l)
     = l.
Proof.
  intros Hl. unfold _lines in Hl.
  pose proof (line_start_span _ _ _ Hl) as Hstart.
  pose proof (index_Some _ _ _ Hl) as (Hi0 & Hnth & Hlt).
  pose proof (line_inside _ _ _ Hnth) as (Hlo & Hhi).
  rewrite lines_span_split in Hhi. split.
  - unfold index. destruct (Z.ltb_spec (lineNo - 1) 0); [lia|].
    unfold line_start. apply nth_error_nth'.
    unfold _lineOffsets, _lines, getLineOffsets.
    rewrite getLineOffsets_from_length. lia.
  - rewrite Hstart.
    set (o := lines_span (firstn (Z.to_nat (lineNo - 1))
                            (split newline (_file this)))) in *.
    pose proof (len_nonneg l).
    unfold substring, clamp.
    replace (Z.min (Z.max 0 (Z.min o (len (_file this))))
               (Z.max 0 (Z.min (o + len l) (len (_file this))))) with o by lia.
    replace (Z.max (Z.max 0 (Z.min o (len (_file this))))
               (Z.max 0 (Z.min (o + len l) (len (_file this)))) - o)
      with (len l) by lia.
    unfold len at 1. rewrite Nat2Z.id.
    pose proof (join_line_at newline _ _ _ Hnth) as Hjoin.
    unfold split in Hjoin at 2. rewrite join_split_acc in Hjoin.
    cbn [rev app] in Hjoin. exact Hjoin.
Qed.

Lemma line_at_its_offset_witness :
  substring test3_text (line_start test3_text 2)
            (line_start test3_text 2 + len (lit "cd foo"))
  = lit "cd foo".
Proof.
  apply (line_at_its_offset (new_AutoFixer test3_text) 2 (lit "cd foo")).
  reflexivity.
Defined.

End TextLines.

(* ================================================================= *)
(** ** Resolving a line and a column *)

Section Resolving.

Lemma getOffsetFor_Ok (this : AutoFixer) (line col o : Z) :
  getOffsetFor this line col = Ok o ->
  exists l,
    index (_lines this) (line - 1) = Some l
    /\ o = line_start (_file this) line
           + adjustTabStops_loop l 0 0 col - 1.
Proof.
  unfold getOffsetFor, adjustTabStops.
  destruct (index (_lines this) (line - 1)) as [l|]; cbn [bind];
    [|discriminate].
  intros H. inversion H; subst. exists l. split; reflexivity.
Qed.

Lemma getOffsetFor_placed (this : AutoFixer) (line col o : Z) :
  getOffsetFor this line col = Ok o ->
  on_line (_file this) line o /\ 0 <= o /\ o <= len (_file this).
Proof.
  intros H. destruct (getOffsetFor_Ok _ _ _ _ H) as (l & Hl & ->).
  pose proof (adjustTabStops_loop_range l 0 0 col) as Hrange.
  unfold _lines in Hl.
  pose proof (line_start_span _ _ _ Hl) as Hstart.
  pose proof (index_Some _ _ _ Hl) as (_ & Hnth & _).
  pose proof (line_inside _ _ _ Hnth) as (Hlo & Hhi).
  rewrite lines_span_split in Hhi. rewrite <- Hstart in Hlo, Hhi.
  split; [exists l; repeat split; [exact Hl | lia | lia] | lia].
Qed.

(** X3.  [getOffsetFor] returns for the lines of the text, from 1 to
    their number, and then gives an offset on that line, so inside the
    text or at its end, whatever the column; for any other line number it
    raises a TypeError. *)
Theorem getOffsetFor_cases (this : AutoFixer) (line col : Z) :
  (1 <= line <= line_count (_file this) ->
   exists o,
     getOffsetFor this line col = Ok o
     /\ on_line (_file this) line o
     /\ 0 <= o /\ o <= len (_file this))
  /\ (line < 1 \/ line_count (_file this) < line ->
      getOffsetFor this line col = Throw TypeError).
Proof.
  unfold line_count. split; intros Hline.
  - destruct (getOffsetFor this line col) as [o|e] eqn:Hget.
    + exists o. split; [reflexivity | apply (getOffsetFor_placed _ _ _ _ Hget)].
    + exfalso. unfold getOffsetFor, adjustTabStops in Hget.
      destruct (index (_lines this) (line - 1)) as [l|] eqn:Hl;
        cbn [bind] in Hget; [discriminate|].
      apply index_None in Hl. unfold _lines in Hl. lia.
  - unfold getOffsetFor, adjustTabStops.
    assert (Hnone : index (_lines this) (line - 1) = None)
      by (apply index_None; unfold _lines; lia).
    rewrite Hnone. reflexivity.
Qed.

Lemma getOffsetFor_cases_witness :
  (exists o,
      getOffsetFor (new_AutoFixer test3_text) 2 40 = Ok o
      /\ on_line test3_text 2 o /\ 0 <= o /\ o <= len test3_text)
  /\ getOffsetFor (new_AutoFixer test3_text) 5 1 = Throw TypeError.
Proof.
  split.
  - apply (proj1 (getOffsetFor_cases (new_AutoFixer test3_text) 2 40)).
    vm_compute. split; discriminate.
  - apply (proj2 (getOffsetFor_cases (new_AutoFixer test3_text) 5 1)).
    right. vm_compute. reflexivity.
Defined.

(** A greater column is never translated to a smaller index. *)
Lemma adjustTabStops_loop_mono (chars : str) :
  forall i logical c c',
    c <= c' ->
    adjustTabStops_loop chars i logical c
    <= adjustTabStops_loop chars i logical c'.
Proof.
  induction chars as [|ch rest IH]; intros i logical c c' Hc;
    cbn [adjustTabStops_loop]; [lia|].
  set (logical' := if Ascii.eqb ch tab then logical + (8 - Z.rem logical 8)
                   else logical + 1).
  destruct (Z.leb_spec c logical'), (Z.leb_spec c' logical'); try lia.
  - pose proof (adjustTabStops_loop_range rest (i + 1) logical' c'). lia.
  - apply IH. exact Hc.
Qed.

(** X4.  A replacement that ends where it starts or later, by line and
    then by column, resolves to a candidate with [start <= end]. *)
Theorem make_candidate_ordered
    (this : AutoFixer) (rep : Replacement.t) (c : Candidate.t) :
  make_candidate this rep = Ok c ->
  Replacement.line rep < Replacement.endLine rep
  \/ (Replacement.line rep = Replacement.endLine rep
      /\ Replacement.column rep <= Replacement.endColumn rep) ->
  Candidate.start c <= Candidate.end_ c.
Proof.
  unfold make_candidate. intros Hc Horder.
  destruct (getOffsetFor this (Replacement.line rep) (Replacement.column rep))
    as [s|] eqn:Hs; cbn [bind] in Hc; [|discriminate].
  destruct (getOffsetFor this (Replacement.endLine rep)
              (Replacement.endColumn rep))
    as [e|] eqn:He; cbn [bind] in Hc; [|discriminate].
  inversion Hc; subst c. cbn [Candidate.start Candidate.end_].
  destruct (getOffsetFor_Ok _ _ _ _ Hs) as (l1 & Hl1 & ->).
  destruct (getOffsetFor_Ok _ _ _ _ He) as (l2 & Hl2 & ->).
  destruct Horder as [Hlt|(Heq & Hcol)].
  - unfold _lines in Hl1, Hl2.
    rewrite (line_start_span _ _ _ Hl1), (line_start_span _ _ _ Hl2).
    pose proof (index_Some _ _ _ Hl1) as (? & Hnth1 & ?).
    pose proof (index_Some _ _ _ Hl2) as (? & Hnth2 & ?).
    pose proof (lines_span_firstn_S _ _ _ Hnth1) as HS.
    pose proof (lines_span_firstn_mono (split newline (_file this))
                  (S (Z.to_nat (Replacement.line rep - 1)))
                  (Z.to_nat (Replacement.endLine rep - 1)) ltac:(lia)).
    pose proof (adjustTabStops_loop_range l1 0 0 (Replacement.column rep)).
    pose proof (adjustTabStops_loop_range l2 0 0 (Replacement.endColumn rep)).
    lia.
  - rewrite Heq in *. rewrite Hl1 in Hl2. inversion Hl2; subst l2.
    pose proof (adjustTabStops_loop_mono l1 0 0 _ _ Hcol). lia.
Qed.

Lemma make_candidate_ordered_witness :
  exists c,
    make_candidate (new_AutoFixer test2_text)
      (mk_replacement 1 2 7 "afterEnd" 9 dquote 22) = Ok c
    /\ Candidate.start c <= Candidate.end_ c.
Proof.
  eexists. split; [vm_compute; reflexivity|].
  eapply (make_candidate_ordered (new_AutoFixer test2_text)
            (mk_replacement 1 2 7 "afterEnd" 9 dquote 22)).
  - vm_compute. reflexivity.
  - left. vm_compute. reflexivity.
Defined.

(** Past [k] leading tabs the cursor stands at [8 * k]. *)
Lemma adjustTabStops_loop_tabs (k : nat) :
  forall (rest : str) (i logical c : Z),
    0 <= logical -> Z.rem logical 8 = 0 ->
    logical + 8 * Z.of_nat k < c ->
    adjustTabStops_loop (repeat tab k ++ rest) i logical c
    = adjustTabStops_loop rest (i + Z.of_nat k)
        (logical + 8 * Z.of_nat k) c.
Proof.
  induction k as [|k IH]; intros rest i logical c Hlog Hrem Hc.
  - cbn [repeat app]. f_equal; lia.
  - cbn [repeat app adjustTabStops_loop]. rewrite Ascii.eqb_refl, Hrem.
    destruct (Z.leb_spec c (logical + (8 - 0))); [lia|].
    rewrite IH.
    + f_equal; lia.
    + lia.
    + rewrite Z.rem_mod_nonneg by lia. rewrite Z.rem_mod_nonneg in Hrem by lia.
      rewrite <- Z.add_mod_idemp_l, Hrem by lia. reflexivity.
    + lia.
Qed.

(** On a stretch without tabs the cursor keeps its lead [d] over the
    index. *)
Lemma adjustTabStops_loop_shifted (chars : str) :
  forall i d c,
    0 <= i -> 0 <= d -> i < c <= i + len chars + 1 ->
    Forall (fun ch => ch <> tab) (firstn (Z.to_nat (c - 1 - i)) chars) ->
    adjustTabStops_loop chars i (i + d) (c + d) = c.
Proof.
  induction chars as [|ch rest IH]; intros i d c Hi Hd Hc Hfree;
    cbn [adjustTabStops_loop].
  - unfold len in Hc. cbn in Hc. lia.
  - rewrite len_cons in Hc.
    destruct (Z.eq_dec c (i + 1)) as [->|Hne].
    + destruct (Ascii.eqb ch tab).
      * pose proof (Z.rem_bound_pos (i + d) 8 ltac:(lia) ltac:(lia)).
        destruct (Z.leb_spec (i + 1 + d) (i + d + (8 - Z.rem (i + d) 8)));
          [reflexivity | lia].
      * destruct (Z.leb_spec (i + 1 + d) (i + d + 1)); [reflexivity | lia].
    + replace (Z.to_nat (c - 1 - i)) with (S (Z.to_nat (c - 1 - (i + 1))))
        in Hfree by lia.
      cbn [firstn] in Hfree. inversion Hfree as [|? ? Hch Hrest]; subst.
      destruct (Ascii.eqb_spec ch tab) as [->|_]; [congruence|].
      destruct (Z.leb_spec (c + d) (i + d + 1)); [lia|].
      replace (i + d + 1) with (i + 1 + d) by lia.
      apply IH; [lia | lia | lia | exact Hrest].
Qed.

(** X5.  On a line indented by [k] tabs, each tab takes 8 columns: the
    column [8 * k + j] of the tool is the character [k + j] of the line,
    for [j] from 1 to one past the rest of the line, when no further tab
    comes before it. *)
Theorem adjustTabStops_indented
    (this : AutoFixer) (lineNo : Z) (k : nat) (rest : str) (j : Z) :
  index (_lines this) (lineNo - 1) = Some (repeat tab k ++ rest) ->
  1 <= j <= len rest + 1 ->
  Forall (fun ch => ch <> tab) (firstn (Z.to_nat (j - 1)) rest) ->
  adjustTabStops this lineNo (8 * Z.of_nat k + j) = Ok (Z.of_nat k + j).
Proof.
  intros Hline Hj Hfree. unfold adjustTabStops. rewrite Hline. f_equal.
  rewrite adjustTabStops_loop_tabs by (try reflexivity; lia).
  replace (0 + Z.of_nat k) with (Z.of_nat k) by lia.
  replace (0 + 8 * Z.of_nat k) with (Z.of_nat k + 7 * Z.of_nat k) by lia.
  replace (8 * Z.of_nat k + j) with (Z.of_nat k + j + 7 * Z.of_nat k) by lia.
  apply adjustTabStops_loop_shifted; [lia | lia | lia |].
  replace (Z.of_nat k + j - 1 - Z.of_nat k) with (j - 1) by lia.
  exact Hfree.
Qed.

Lemma adjustTabStops_indented_witness :
  adjustTabStops (new_AutoFixer test2_text) 2 (8 * Z.of_nat 2 + 6)
  = Ok (Z.of_nat 2 + 6).
Proof.
  apply (adjustTabStops_indented (new_AutoFixer test2_text) 2 2
           (lit "echo $var:" ++ [tab] ++ lit "$value")%list 6).
  - reflexivity.
  - vm_compute. split; discriminate.
  - vm_compute. repeat constructor; discriminate.
Defined.

End Resolving.

(* ================================================================= *)
(** ** What [applyFix] and [applyFixes] do to a session *)

Section Sessions.

Lemma make_candidate_file (this : AutoFixer) (l : list Candidate.t)
    (rep : Replacement.t) :
  make_candidate (set_replacements this l) rep = make_candidate this rep.
Proof. reflexivity. Qed.

Lemma make_candidates_file (this : AutoFixer) (l : list Candidate.t)
    (reps : list Replacement.t) :
  make_candidates (set_replacements this l) reps = make_candidates this reps.
Proof.
  induction reps as [|rep reps IH]; [reflexivity|].
  cbn [make_candidates]. rewrite IH, make_candidate_file. reflexivity.
Qed.

Lemma applyFix_loop_rejects_any (this : AutoFixer)
    (reps : list Replacement.t) :
  forall acc cs,
    make_candidates this reps = Ok cs ->
    Exists (fun c => existsb (overlaps c) (_replacements this) = true) cs ->
    applyFix_loop this reps acc = Ok None.
Proof.
  induction reps as [|r reps IH]; intros acc cs Hcs Hex;
    cbn [make_candidates applyFix_loop] in *.
  - inversion Hcs; subst. inversion Hex.
  - destruct (make_candidate this r) as [c|e]; cbn [bind] in *;
      [|discriminate].
    destruct (make_candidates this reps) as [cs'|e]; cbn [bind] in Hcs;
      [|discriminate].
    inversion Hcs; subst.
    destruct (existsb (overlaps c) (_replacements this)) eqn:Hc;
      [reflexivity|].
    inversion Hex as [? ? Hhd|? ? Htl]; subst; [congruence|].
    apply (IH _ cs' eq_refl Htl).
Qed.

Lemma disjoint_groups_Forall (this : AutoFixer) (cs : list Candidate.t) :
  disjoint_groups cs (_replacements this)
  <-> Forall (fun c => existsb (overlaps c) (_replacements this) = false) cs.
Proof.
  unfold disjoint_groups. rewrite Forall_forall. split.
  - intros H c Hc.
    destruct (existsb (overlaps c) (_replacements this)) eqn:Hex;
      [|reflexivity].
    apply existsb_exists in Hex. destruct Hex as (e & He & Hov).
    rewrite (H c e Hc He) in Hov. discriminate.
  - intros H c e Hc He. specialize (H c Hc).
    destruct (overlaps c e) eqn:Hov; [|reflexivity].
    assert (existsb (overlaps c) (_replacements this) = true)
      by (apply existsb_exists; exists e; split; assumption).
    congruence.
Qed.

(** X6.  [applyFix] returns [true] exactly for a fix with a replacement
    sequence whose replacements all resolve to candidates none of which
    overlaps an accepted one.  For such a fix it returns [true] and
    appends these candidates, in the order of the replacements, changing
    nothing else; and whenever it returns [true] the fix is such a fix. *)
Theorem applyFix_accepts_iff (this : AutoFixer) (item : option Item) :
  (forall reps cs,
      fix_replacements item = Some reps ->
      make_candidates this reps = Ok cs ->
      disjoint_groups cs (_replacements this) ->
      applyFix this item
      = (Ok true, set_replacements this (_replacements this ++ cs)))
  /\ (fst (applyFix this item) = Ok true ->
      exists reps cs,
        fix_replacements item = Some reps
        /\ make_candidates this reps = Ok cs
        /\ disjoint_groups cs (_replacements this)).
Proof.
  unfold applyFix. split.
  - intros reps cs -> Hcs Hdis.
    apply disjoint_groups_Forall in Hdis.
    rewrite (applyFix_loop_accepts this reps [] cs Hcs Hdis). reflexivity.
  - destruct (fix_replacements item) as [reps|]; [|discriminate].
    destruct (applyFix_loop this reps []) as [[out|]|e] eqn:Hloop;
      try discriminate.
    intros _. destruct (applyFix_loop_accepted this reps [] out Hloop)
      as (cs & -> & Hcs & Hfree).
    exists reps, cs. split; [reflexivity|]. split; [exact Hcs|].
    apply disjoint_groups_Forall. exact Hfree.
Qed.

Lemma applyFix_accepts_iff_witness :
  let item := bare [sample_rep 5 7 1 "Y"; sample_rep 1 2 1 "Z"] in
  (exists cs,
      applyFix sample_session item
      = (Ok true,
         set_replacements sample_session
           (_replacements sample_session ++ cs)))
  /\ exists reps cs,
      fix_replacements item = Some reps
      /\ make_candidates sample_session reps = Ok cs
      /\ disjoint_groups cs (_replacements sample_session).
Proof.
  cbv zeta. split.
  - eexists.
    apply (proj1 (applyFix_accepts_iff sample_session
                    (bare [sample_rep 5 7 1 "Y"; sample_rep 1 2 1 "Z"]))
             [sample_rep 5 7 1 "Y"; sample_rep 1 2 1 "Z"]).
    + reflexivity.
    + vm_compute. reflexivity.
    + intros c e Hc He. vm_compute in He. destruct He as [<-|[]].
      destruct Hc as [<-|[<-|[]]]; reflexivity.
  - apply (proj2 (applyFix_accepts_iff sample_session
                    (bare [sample_rep 5 7 1 "Y"; sample_rep 1 2 1 "Z"]))).
    reflexivity.
Defined.

Lemma make_candidate_Throw (this : AutoFixer) (rep : Replacement.t) (e : exn) :
  make_candidate this rep = Throw e ->
  e = TypeError
  /\ (index (_lines this) (Replacement.line rep - 1) = None
      \/ index (_lines this) (Replacement.endLine rep - 1) = None).
Proof.
  unfold make_candidate, getOffsetFor, adjustTabStops.
  destruct (index (_lines this) (Replacement.line rep - 1)); cbn [bind].
  - destruct (index (_lines this) (Replacement.endLine rep - 1)); cbn [bind];
      [discriminate|].
    intros H. inversion H. split; [reflexivity | right; reflexivity].
  - intros H. inversion H. split; [reflexivity | left; reflexivity].
Qed.

Lemma applyFix_loop_Throw (this : AutoFixer) (reps : list Replacement.t) :
  forall acc e,
    applyFix_loop this reps acc = Throw e ->
    e = TypeError
    /\ exists rep,
        In rep reps
        /\ (index (_lines this) (Replacement.line rep - 1) = None
            \/ index (_lines this) (Replacement.endLine rep - 1) = None).
Proof.
  induction reps as [|r reps IH]; intros acc e Hloop;
    cbn [applyFix_loop] in Hloop; [discriminate|].
  destruct (make_candidate this r) as [c|e'] eqn:Hc; cbn [bind] in Hloop.
  - destruct (existsb (overlaps c) (_replacements this)); [discriminate|].
    destruct (IH _ _ Hloop) as (-> & rep & Hin & Hout).
    split; [reflexivity|]. exists rep. split; [right; exact Hin | exact Hout].
  - inversion Hloop; subst e'.
    destruct (make_candidate_Throw _ _ _ Hc) as (-> & Hout).
    split; [reflexivity|]. exists r. split; [left; reflexivity | exact Hout].
Qed.

(** X7.  [applyFix] changes the session only when it returns [true].  The
    one exception it can raise is a TypeError, and only for a fix with a
    replacement whose [line] or [endLine] is no line of the text; the
    session is then as before. *)
Theorem applyFix_failure (this : AutoFixer) (item : option Item) :
  (fst (applyFix this item) <> Ok true -> snd (applyFix this item) = this)
  /\ (forall e,
        fst (applyFix this item) = Throw e ->
        e = TypeError
        /\ exists reps rep,
            fix_replacements item = Some reps /\ In rep reps
            /\ ((Replacement.line rep < 1
                 \/ line_count (_file this) < Replacement.line rep)
                \/ (Replacement.endLine rep < 1
                    \/ line_count (_file this) < Replacement.endLine rep))).
Proof.
  split.
  - intros Hne.
    destruct (applyFix_cases this item) as [(Hsame & _)|(cs & Heq & _)];
      [exact Hsame|].
    rewrite Heq in Hne. cbn [fst] in Hne. congruence.
  - intros e. unfold applyFix.
    destruct (fix_replacements item) as [reps|]; [|discriminate].
    destruct (applyFix_loop this reps []) as [[out|]|e'] eqn:Hloop;
      try discriminate.
    cbn [fst]. intros H. inversion H; subst e'.
    destruct (applyFix_loop_Throw _ _ _ _ Hloop) as (-> & rep & Hin & Hout).
    split; [reflexivity|]. exists reps, rep.
    split; [reflexivity|]. split; [exact Hin|].
    unfold line_count. unfold _lines in Hout.
    rewrite !index_None in Hout. lia.
Qed.

Lemma applyFix_failure_witness :
  snd (applyFix sample_session (bare [sample_rep 3 4 1 "Y"])) = sample_session
  /\ exists reps rep,
      fix_replacements (bare [mk_replacement 2 2 1 "beforeStart" 1 dquote 1])
      = Some reps
      /\ In rep reps
      /\ ((Replacement.line rep < 1
           \/ line_count (_file sample_session) < Replacement.line rep)
          \/ (Replacement.endLine rep < 1
              \/ line_count (_file sample_session)
                 < Replacement.endLine rep)).
Proof.
  split.
  - apply (proj1 (applyFix_failure sample_session
                    (bare [sample_rep 3 4 1 "Y"]))).
    vm_compute. discriminate.
  - apply (proj2 (applyFix_failure sample_session
                    (bare [mk_replacement 2 2 1 "beforeStart" 1 dquote 1]))
             TypeError).
    reflexivity.
Defined.

End Sessions.

Section Batches.

(** The session after [applyFix] calls in a row, outcomes dropped. *)
Lemma applyFixes_loop_session (fixlist : list (option Item)) :
  forall this res res',
    fst (applyFixes_loop this fixlist res) = Ok res' ->
    snd (applyFixes_loop this fixlist res)
    = fold_left (fun s f => snd (applyFix s f)) fixlist this
    /\ Permutation (applied res' ++ rejected res')
         (applied res ++ rejected res ++ fixlist).
Proof.
  induction fixlist as [|f rest IH]; intros this res res' Hres;
    cbn [applyFixes_loop fold_left] in *.
  - inversion Hres; subst. rewrite app_nil_r. split; reflexivity.
  - destruct (applyFix this f) as [[[|]|e] this'] eqn:Happ; cbn [snd].
    + destruct (IH _ _ _ Hres) as (Hs & Hp). split; [exact Hs|].
      rewrite Hp. cbn [applied rejected]. rewrite <- !app_assoc.
      apply Permutation_app_head. cbn [app]. apply Permutation_middle.
    + destruct (IH _ _ _ Hres) as (Hs & Hp). split; [exact Hs|].
      rewrite Hp. cbn [applied rejected]. rewrite <- !app_assoc.
      reflexivity.
    + discriminate.
Qed.

(** X8.  When no fix raises, [applyFixes] leaves the session that
    [applyFix] on each fix in turn leaves, and sorts every fix of the list
    into exactly one of [applied] and [rejected]. *)
Theorem applyFixes_partition
    (this : AutoFixer) (fixlist : list (option Item)) (res : FixesResult) :
  fst (applyFixes this fixlist) = Ok res ->
  snd (applyFixes this fixlist)
  = fold_left (fun s f => snd (applyFix s f)) fixlist this
  /\ Permutation (applied res ++ rejected res) fixlist.
Proof.
  unfold applyFixes. intros Hres.
  destruct (applyFixes_loop_session fixlist this _ res Hres) as (Hs & Hp).
  split; [exact Hs | exact Hp].
Qed.

Lemma applyFixes_partition_witness :
  exists res,
    fst (applyFixes (new_AutoFixer test1_text) test1_fixes) = Ok res
    /\ snd (applyFixes (new_AutoFixer test1_text) test1_fixes)
       = fold_left (fun s f => snd (applyFix s f)) test1_fixes
           (new_AutoFixer test1_text)
    /\ Permutation (applied res ++ rejected res) test1_fixes.
Proof.
  eexists. split; [vm_compute; reflexivity|].
  apply (applyFixes_partition (new_AutoFixer test1_text) test1_fixes).
  vm_compute. reflexivity.
Defined.

(** The accepted candidates only grow at their end, also when a fix
    raises. *)
Lemma applyFix_appends (this : AutoFixer) (item : option Item) :
  _file (snd (applyFix this item)) = _file this
  /\ exists cs,
      _replacements (snd (applyFix this item)) = _replacements this ++ cs.
Proof.
  destruct (applyFix_cases this item) as [(-> & _)|(cs & -> & _)].
  - split; [reflexivity|]. exists []. rewrite app_nil_r. reflexivity.
  - split; [reflexivity|]. exists cs. reflexivity.
Qed.

Lemma applyFixes_loop_appends (fixlist : list (option Item)) :
  forall this res,
    _file (snd (applyFixes_loop this fixlist res)) = _file this
    /\ exists cs,
        _replacements (snd (applyFixes_loop this fixlist res))
        = _replacements this ++ cs.
Proof.
  induction fixlist as [|f rest IH]; intros this res;
    cbn [applyFixes_loop].
  - split; [reflexivity|]. exists []. rewrite app_nil_r. reflexivity.
  - destruct (applyFix_appends this f) as (Hfile & cs & Hcs).
    destruct (applyFix this f) as [[[|]|e] this'] eqn:Happ;
      cbn [snd] in Hfile, Hcs |- *.
    + destruct (IH this' {| applied := applied res ++ [f];
                            rejected := rejected res |}) as (Hf & cs' & Hcs').
      split; [congruence|]. exists (cs ++ cs').
      rewrite Hcs', Hcs, app_assoc. reflexivity.
    + destruct (IH this' {| applied := applied res;
                            rejected := rejected res ++ [f] |})
        as (Hf & cs' & Hcs').
      split; [congruence|]. exists (cs ++ cs').
      rewrite Hcs', Hcs, app_assoc. reflexivity.
    + split; [exact Hfile|]. exists cs. exact Hcs.
Qed.

(** X9.  [applyFixes] never touches the text and never drops or reorders
    an accepted candidate: what was accepted before the call is a prefix
    of what is accepted after it, whether the call returns or raises. *)
Theorem applyFixes_appends (this : AutoFixer) (fixlist : list (option Item)) :
  _file (snd (applyFixes this fixlist)) = _file this
  /\ exists cs,
      _replacements (snd (applyFixes this fixlist))
      = _replacements this ++ cs.
Proof. apply applyFixes_loop_appends. Qed.

(** X10.  Of two fixes that each could be accepted alone but hold
    candidates that overlap each other, [applyFixes] accepts the one that
    comes first and rejects the other. *)
Theorem applyFixes_first_wins
    (this : AutoFixer) (fa fb : option Item)
    (ra rb : list Replacement.t) (ca cb : list Candidate.t)
    (a b : Candidate.t) :
  fix_replacements fa = Some ra -> make_candidates this ra = Ok ca ->
  fix_replacements fb = Some rb -> make_candidates this rb = Ok cb ->
  disjoint_groups ca (_replacements this) ->
  disjoint_groups cb (_replacements this) ->
  In a ca -> In b cb -> overlaps a b = true ->
  applyFixes this [fa; fb]
  = (Ok {| applied := [fa]; rejected := [fb] |},
     set_replacements this (_replacements this ++ ca))
  /\ applyFixes this [fb; fa]
     = (Ok {| applied := [fb]; rejected := [fa] |},
        set_replacements this (_replacements this ++ cb)).
Proof.
  intros Hfa Hca Hfb Hcb Hda Hdb Ha Hb Hov.
  assert (Hfirst : forall f g rf rg cf cg x y,
             fix_replacements f = Some rf -> make_candidates this rf = Ok cf ->
             fix_replacements g = Some rg -> make_candidates this rg = Ok cg ->
             disjoint_groups cf (_replacements this) ->
             In x cf -> In y cg -> overlaps y x = true ->
             applyFixes this [f; g]
             = (Ok {| applied := [f]; rejected := [g] |},
                set_replacements this (_replacements this ++ cf))).
  { intros f g rf rg cf cg x y Hf Hcf Hg Hcg Hd Hx Hy Hyx.
    unfold applyFixes. cbn [applyFixes_loop].
    assert (Hacc : applyFix this f
                   = (Ok true,
                      set_replacements this (_replacements this ++ cf))).
    { unfold applyFix. rewrite Hf.
      rewrite (applyFix_loop_accepts this rf [] cf Hcf); [reflexivity|].
      apply disjoint_groups_Forall. exact Hd. }
    rewrite Hacc.
    assert (Hrej : applyFix
                     (set_replacements this (_replacements this ++ cf)) g
                   = (Ok false,
                      set_replacements this (_replacements this ++ cf))).
    { unfold applyFix. rewrite Hg.
      rewrite (applyFix_loop_rejects_any _ rg [] cg); [reflexivity | |].
      - rewrite make_candidates_file. exact Hcg.
      - apply Exists_exists. exists y. split; [exact Hy|].
        apply existsb_exists. exists x. cbn [_replacements set_replacements].
        split; [apply in_or_app; right; exact Hx | exact Hyx]. }
    rewrite Hrej. reflexivity. }
  split.
  - apply (Hfirst fa fb ra rb ca cb a b); try assumption.
    rewrite overlaps_sym. exact Hov.
  - apply (Hfirst fb fa rb ra cb ca b a); assumption.
Qed.

Lemma applyFixes_first_wins_witness :
  let fa := bare [sample_rep 5 7 1 "Y"] in
  let fb := bare [sample_rep 6 7 1 "Z"; sample_rep 1 2 1 "W"] in
  fst (applyFixes sample_session [fa; fb])
  = Ok {| applied := [fa]; rejected := [fb] |}
  /\ fst (applyFixes sample_session [fb; fa])
     = Ok {| applied := [fb]; rejected := [fa] |}.
Proof.
  cbv zeta.
  edestruct (applyFixes_first_wins sample_session
               (bare [sample_rep 5 7 1 "Y"])
               (bare [sample_rep 6 7 1 "Z"; sample_rep 1 2 1 "W"]))
    as (H1 & H2).
  - reflexivity.
  - vm_compute. reflexivity.
  - reflexivity.
  - vm_compute. reflexivity.
  - intros c e Hc He. vm_compute in Hc, He.
    destruct He as [<-|[]]. destruct Hc as [<-|[]]. reflexivity.
  - intros c e Hc He. vm_compute in Hc, He.
    destruct He as [<-|[]]. destruct Hc as [<-|[<-|[]]]; reflexivity.
  - left. reflexivity.
  - left. reflexivity.
  - reflexivity.
  - rewrite H1, H2. split; reflexivity.
Defined.

End Batches.

(* ================================================================= *)
(** ** Where the accepted candidates lie *)

Section Placement.

(** A property of sessions that holds of a new session and that every
    method keeps holds of every reachable session. *)
Lemma reachable_invariant (file : str) (P : AutoFixer -> Prop) :
  P (new_AutoFixer file) ->
  (forall this item, P this -> P (snd (applyFix this item))) ->
  (forall this, P this -> P (reset this)) ->
  (forall this,
      P this ->
      P (set_replacements this (sort by_precedence (_replacements this)))) ->
  forall this groups, reachable file this groups -> P this.
Proof.
  intros Hnew Hfix Hreset Hsort.
  assert (Hloop : forall fixlist this res,
             P this -> P (snd (applyFixes_loop this fixlist res))).
  { induction fixlist as [|f rest IH]; intros this res Hthis;
      cbn [applyFixes_loop]; [exact Hthis|].
    pose proof (Hfix this f Hthis) as Hstep.
    destruct (applyFix this f) as [[[|]|e] this']; cbn [snd] in *;
      [apply IH | apply IH |]; exact Hstep. }
  induction 1 as [|this groups item _ IH|this groups fixlist _ IH
                 |this groups _ IH|this groups _ IH|this groups _ IH].
  - exact Hnew.
  - apply Hfix. exact IH.
  - apply Hloop. exact IH.
  - apply Hreset. exact IH.
  - apply Hsort. exact IH.
  - rewrite getSnippet_session. apply Hsort. exact IH.
Qed.

Lemma make_candidate_placed (this : AutoFixer) (rep : Replacement.t)
    (c : Candidate.t) :
  make_candidate this rep = Ok c -> placed (_file this) c.
Proof.
  unfold make_candidate. intros Hc.
  destruct (getOffsetFor this (Replacement.line rep) (Replacement.column rep))
    as [s|] eqn:Hs; cbn [bind] in Hc; [|discriminate].
  destruct (getOffsetFor this (Replacement.endLine rep)
              (Replacement.endColumn rep))
    as [e|] eqn:He; cbn [bind] in Hc; [|discriminate].
  inversion Hc; subst c. unfold placed.
  cbn [Candidate.start Candidate.end_ Candidate.startLine Candidate.endLine].
  split; [apply (getOffsetFor_placed _ _ _ _ Hs)
         | apply (getOffsetFor_placed _ _ _ _ He)].
Qed.

(** What [applyFix] appended when it returned [true]. *)
Lemma applyFix_true_candidates (this : AutoFixer) (item : option Item)
    (this' : AutoFixer) :
  applyFix this item = (Ok true, this') ->
  exists reps cs,
    fix_replacements item = Some reps
    /\ make_candidates this reps = Ok cs
    /\ this' = set_replacements this (_replacements this ++ cs).
Proof.
  unfold applyFix.
  destruct (fix_replacements item) as [reps|]; [|discriminate].
  destruct (applyFix_loop this reps []) as [[out|]|e] eqn:Hloop;
    try discriminate.
  intros H. inversion H; subst this'.
  destruct (applyFix_loop_accepted this reps [] out Hloop)
    as (cs & -> & Hcs & _).
  exists reps, cs. repeat split. exact Hcs.
Qed.

Lemma make_candidates_placed (this : AutoFixer) (reps : list Replacement.t) :
  forall cs,
    make_candidates this reps = Ok cs ->
    Forall (placed (_file this)) cs.
Proof.
  induction reps as [|rep reps IH]; intros cs Hcs;
    cbn [make_candidates] in Hcs.
  - inversion Hcs. constructor.
  - destruct (make_candidate this rep) as [c|] eqn:Hc; cbn [bind] in Hcs;
      [|discriminate].
    destruct (make_candidates this reps) as [cs'|]; cbn [bind] in Hcs;
      [|discriminate].
    inversion Hcs; subst. constructor; [|apply IH; reflexivity].
    apply (make_candidate_placed _ _ _ Hc).
Qed.

Lemma placed_bounds (file : str) (c : Candidate.t) :
  placed file c ->
  0 <= Candidate.start c /\ Candidate.start c <= len file
  /\ 0 <= Candidate.end_ c /\ Candidate.end_ c <= len file.
Proof.
  intros ((l1 & Hl1 & Hs1 & Hs2) & (l2 & Hl2 & He1 & He2)).
  pose proof (line_start_span _ _ _ Hl1) as Hstart1.
  pose proof (line_start_span _ _ _ Hl2) as Hstart2.
  pose proof (index_Some _ _ _ Hl1) as (_ & Hnth1 & _).
  pose proof (index_Some _ _ _ Hl2) as (_ & Hnth2 & _).
  pose proof (line_inside _ _ _ Hnth1) as (? & Hhi1).
  pose proof (line_inside _ _ _ Hnth2) as (? & Hhi2).
  rewrite lines_span_split in Hhi1, Hhi2. lia.
Qed.

(** X11.  In every reachable session each accepted candidate starts on
    its [startLine] and ends on its [endLine], both lines of the text; so
    both its offsets lie inside the text or at its end. *)
Theorem accepted_are_placed
    (file : str) (this : AutoFixer) (groups : list (list Candidate.t)) :
  reachable file this groups ->
  Forall (fun c =>
            placed file c
            /\ 0 <= Candidate.start c /\ Candidate.start c <= len file
            /\ 0 <= Candidate.end_ c /\ Candidate.end_ c <= len file)
         (_replacements this).
Proof.
  intros Hreach.
  enough (Hinv : _file this = file
                 /\ Forall (placed file) (_replacements this)).
  { destruct Hinv as (_ & Hall). eapply Forall_impl; [|exact Hall].
    intros c Hc. split; [exact Hc | apply placed_bounds; exact Hc]. }
  revert this groups Hreach.
  apply (reachable_invariant file
           (fun this => _file this = file
                        /\ Forall (placed file) (_replacements this))).
  - split; [reflexivity | constructor].
  - intros this item (Hfile & Hall).
    destruct (applyFix_cases this item) as [(-> & _)|(cs0 & Heq & _ & _)];
      [split; assumption|].
    destruct (applyFix_true_candidates _ _ _ Heq)
      as (reps & cs & _ & Hcs & Heq').
    rewrite Heq. cbn [snd]. rewrite Heq'.
    cbn [_file _replacements set_replacements].
    split; [exact Hfile|]. apply Forall_app. split; [exact Hall|].
    rewrite <- Hfile. apply (make_candidates_placed this reps cs Hcs).
  - intros this (Hfile & _). split; [exact Hfile | constructor].
  - intros this (Hfile & Hall). split; [exact Hfile|].
    cbn [_replacements set_replacements].
    rewrite <- (sort_perm by_precedence (_replacements this)). exact Hall.
Qed.

Lemma accepted_are_placed_witness :
  Forall (fun c =>
            placed test2_text c
            /\ 0 <= Candidate.start c /\ Candidate.start c <= len test2_text
            /\ 0 <= Candidate.end_ c /\ Candidate.end_ c <= len test2_text)
         (_replacements
            (snd (applyFixes (new_AutoFixer test2_text) test2_fixes))).
Proof.
  apply (accepted_are_placed test2_text _
           ([] ++ admitted_all (new_AutoFixer test2_text) test2_fixes)).
  apply reach_applyFixes. apply reach_new.
Defined.

End Placement.

(* ================================================================= *)
(** ** Outcomes of the rendering calls *)

Section Outcomes.

Lemma insertion_point_cases (c : Candidate.t) :
  (recognised c /\ insertion_point c = Ok (anchor c))
  \/ (~ recognised c
      /\ insertion_point c
         = Throw (Error ("Unrecognized insertion point "
                           ++ Candidate.point c)%string)).
Proof.
  unfold recognised, anchor, insertion_point.
  destruct (String.eqb_spec (Candidate.point c) "beforeStart") as [H1|H1];
    [left; split; [left; exact H1 | reflexivity]|].
  destruct (String.eqb_spec (Candidate.point c) "afterEnd") as [H2|H2];
    [left; split; [right; exact H2 | reflexivity]|].
  right. split; [tauto | reflexivity].
Qed.

Lemma applyReplacement_outcome (file : str) (tree : PrefixSumTree.t)
    (c : Candidate.t) :
  (recognised c /\ exists ft, applyReplacement file tree c = Ok ft)
  \/ (~ recognised c
      /\ applyReplacement file tree c
         = Throw (Error ("Unrecognized insertion point "
                           ++ Candidate.point c)%string)).
Proof.
  unfold applyReplacement.
  destruct (insertion_point_cases c) as [(Hrec & ->)|(Hrec & ->)];
    cbn [bind]; [left | right]; split; try assumption; try reflexivity.
  eexists. reflexivity.
Qed.

Lemma applyReplacements_outcome (reps : list Candidate.t) :
  forall file tree,
    (Forall recognised reps
     /\ exists ft, applyReplacements reps file tree = Ok ft)
    \/ (exists c,
          In c reps /\ ~ recognised c
          /\ applyReplacements reps file tree
             = Throw (Error ("Unrecognized insertion point "
                               ++ Candidate.point c)%string)).
Proof.
  induction reps as [|c reps IH]; intros file tree; cbn [applyReplacements].
  - left. split; [constructor | eexists; reflexivity].
  - destruct (applyReplacement_outcome file tree c)
      as [(Hrec & ft & ->)|(Hrec & ->)]; cbn [bind].
    + destruct (IH (fst ft) (snd ft)) as [(Hall & ft' & ->)|(d & Hd & Hn & ->)].
      * left. split; [constructor; assumption | eexists; reflexivity].
      * right. exists d. split; [right; exact Hd|]. split; [exact Hn|reflexivity].
    + right. exists c. split; [left; reflexivity|]. split; [exact Hrec|reflexivity].
Qed.

(** X12.  [getResult] returns a text exactly when the insertion point of
    every accepted candidate is [beforeStart] or [afterEnd]; otherwise it
    raises the error that names the insertion point of an accepted
    candidate that has neither. *)
Theorem getResult_outcome (this : AutoFixer) :
  (Forall recognised (_replacements this)
   /\ exists out, fst (getResult this) = Ok out)
  \/ (exists c,
        In c (_replacements this) /\ ~ recognised c
        /\ fst (getResult this)
           = Throw (Error ("Unrecognized insertion point "
                             ++ Candidate.point c)%string)).
Proof.
  unfold getResult. cbn [fst _file set_replacements].
  pose proof (sort_perm by_precedence (_replacements this)) as Hperm.
  destruct (applyReplacements_outcome
              (rev (sort by_precedence (_replacements this)))
              (_file this) PrefixSumTree.new)
    as [(Hall & ft & ->)|(c & Hc & Hn & ->)]; cbn [bind].
  - left. split; [|eexists; reflexivity].
    rewrite Hperm. rewrite <- (rev_involutive (sort _ _)).
    apply Forall_rev. exact Hall.
  - right. exists c. split; [|split; [exact Hn | reflexivity]].
    apply (Permutation_in c (Permutation_sym Hperm)).
    apply in_rev. exact Hc.
Qed.

(** The loop of [getSnippet] is that of [getResult] with the two line
    numbers kept beside it. *)
Lemma snippet_loop_applyReplacements (reps : list Candidate.t) :
  forall file tree lo hi,
    snippet_loop reps file tree lo hi
    = (ft <- applyReplacements reps file tree ;;
       Ok (fst ft, snd ft, min_startLine lo reps, max_endLine hi reps)).
Proof.
  induction reps as [|c reps IH]; intros file tree lo hi;
    cbn [snippet_loop applyReplacements].
  - reflexivity.
  - destruct (applyReplacement file tree c) as [ft|e]; cbn [bind];
      [|reflexivity].
    rewrite IH. reflexivity.
Qed.





End Outcomes.

Section NothingToRender.

Lemma hasModifications_false (this : AutoFixer) :
  hasModifications this = false <-> _replacements this = [].
Proof.
  unfold hasModifications. destruct (_replacements this) as [|c l].
  - split; reflexivity.
  - cbn [List.length]. split; [|discriminate].
    destruct (Z.ltb_spec 0 (Z.of_nat (S (List.length l)))); [discriminate|lia].
Qed.

(** X14.  [getSnippet] raises the error "No fixes have been applied."
    exactly when [hasModifications] is [false]; with accepted candidates
    it returns a text or raises another exception. *)
Theorem getSnippet_nothing_to_render (this : AutoFixer) :
  hasModifications this = false
  <-> fst (getSnippet this)
      = Throw (Error "No fixes have been applied."%string).
Proof.
  rewrite hasModifications_false. unfold getSnippet.
  destruct (_replacements this) as [|c0 l0] eqn:Hacc;
    [split; reflexivity|].
  split; [discriminate|]. rewrite <- Hacc.
  destruct (sort by_precedence (_replacements this)) as [|first sorted];
    [discriminate|].
  cbn [fst]. rewrite snippet_loop_applyReplacements.
  destruct (applyReplacements_outcome (rev (first :: sorted))
              (_file (set_replacements this (first :: sorted)))
              PrefixSumTree.new) as [(_ & ft & ->)|(c & _ & _ & ->)];
    cbn [bind].
  - destruct ft as [file tree]. cbn [fst snd]. discriminate.
  - intros H. inversion H.
Qed.

End NothingToRender.

Section SingleReplacement.

Lemma substring_prefix (s : str) (a : Z) :
  0 <= a <= len s -> substring s 0 a = firstn (Z.to_nat a) s.
Proof.
  intros Ha. unfold substring, clamp.
  replace (Z.min (Z.max 0 (Z.min 0 (len s))) (Z.max 0 (Z.min a (len s))))
    with 0 by lia.
  replace (Z.max (Z.max 0 (Z.min 0 (len s))) (Z.max 0 (Z.min a (len s))) - 0)
    with a by lia.
  reflexivity.
Qed.

Lemma substring_suffix (s : str) (b : Z) :
  0 <= b <= len s -> substring_from s b = skipn (Z.to_nat b) s.
Proof.
  intros Hb. unfold substring_from, substring, clamp.
  replace (Z.min (Z.max 0 (Z.min b (len s)))
             (Z.max 0 (Z.min (len s) (len s)))) with b by lia.
  replace (Z.max (Z.max 0 (Z.min b (len s)))
             (Z.max 0 (Z.min (len s) (len s))) - b) with (len s - b) by lia.
  apply firstn_all2. rewrite length_skipn. unfold len. lia.
Qed.

(** X15.  With one accepted candidate, a range of the text with its ends
    in order and an insertion point the code knows, [getResult] returns
    the text before the range, the replacement, and the text after the
    range. *)
Theorem getResult_single (this : AutoFixer) (c : Candidate.t) :
  _replacements this = [c] ->
  recognised c ->
  in_text (_file this) c ->
  fst (getResult this)
  = Ok (firstn (Z.to_nat (Candidate.start c)) (_file this)
        ++ Candidate.text c
        ++ skipn (Z.to_nat (Candidate.end_ c)) (_file this))%list.
Proof.
  intros Hacc Hrec (H0 & H1 & H2). unfold getResult. rewrite Hacc.
  cbn [sort sort_insert rev app fst _file set_replacements applyReplacements].
  unfold applyReplacement.
  destruct (recognised_anchor c Hrec) as (-> & _). cbn [bind fst].
  rewrite !lookup_new, !Z.add_0_r, substring_prefix, substring_suffix by lia.
  reflexivity.
Qed.

Lemma getResult_single_witness :
  fst (getResult sample_session) = Ok (lit "aXef").
Proof.
  eapply eq_trans.
  - eapply (getResult_single sample_session).
    + vm_compute. reflexivity.
    + left. reflexivity.
    + vm_compute. repeat split; discriminate.
  - reflexivity.
Defined.

(** The loop on insertions: each adds the length of its text. *)
Lemma applyReplacements_insertions (reps : list Candidate.t) :
  forall file tree,
    Forall (fun c => Candidate.start c = Candidate.end_ c) reps ->
    Forall recognised reps ->
    exists ft,
      applyReplacements reps file tree = Ok ft
      /\ len (fst ft)
         = len file + sum_of (fun c => len (Candidate.text c)) reps.
Proof.
  induction reps as [|c reps IH]; intros file tree Hzero Hrec;
    cbn [applyReplacements].
  - eexists. split; [reflexivity|]. cbn. lia.
  - inversion Hzero as [|? ? Hc Hzero']; subst.
    inversion Hrec as [|? ? Hcr Hrec']; subst.
    unfold applyReplacement.
    destruct (recognised_anchor c Hcr) as (-> & _). cbn [bind fst snd].
    rewrite Hc.
    edestruct (IH (substring file 0
                     (Candidate.end_ c
                      + PrefixSumTree.lookup tree (Candidate.end_ c))
                   ++ Candidate.text c
                   ++ substring_from file
                        (Candidate.end_ c
                         + PrefixSumTree.lookup tree (Candidate.end_ c)))%list)
      as (ft & Hft & Hlen); [exact Hzero' | exact Hrec' |].
    exists ft. split; [exact Hft|].
    rewrite Hlen, len_splice, sum_of_cons. lia.
Qed.

(** X16.  When every accepted candidate is an insertion ([start = end])
    with an insertion point the code knows, [getResult] returns a text as
    long as the original and all the inserted texts together, wherever
    the insertions lie. *)
Theorem getResult_insertions_length (this : AutoFixer) :
  Forall (fun c => Candidate.start c = Candidate.end_ c) (_replacements this) ->
  Forall recognised (_replacements this) ->
  exists out,
    fst (getResult this) = Ok out
    /\ len out
       = len (_file this)
         + sum_of (fun c => len (Candidate.text c)) (_replacements this).
Proof.
  intros Hzero Hrec. unfold getResult. cbn [fst _file set_replacements].
  pose proof (sort_perm by_precedence (_replacements this)) as Hperm.
  assert (Hperm' : Permutation (_replacements this)
                     (rev (sort by_precedence (_replacements this))))
    by (rewrite Hperm at 1; apply Permutation_rev).
  edestruct (applyReplacements_insertions
               (rev (sort by_precedence (_replacements this)))
               (_file this) PrefixSumTree.new) as (ft & -> & Hlen).
  - rewrite <- Hperm'. exact Hzero.
  - rewrite <- Hperm'. exact Hrec.
  - cbn [bind]. exists (fst ft). split; [reflexivity|].
    rewrite Hlen, (sum_of_perm _ _ _ Hperm'). reflexivity.
Qed.

Lemma getResult_insertions_length_witness :
  exists out,
    fst (getResult (snd (applyFixes (new_AutoFixer test1_text) test1_fixes)))
    = Ok out
    /\ len out
       = len test1_text
         + sum_of (fun c => len (Candidate.text c))
             (_replacements
                (snd (applyFixes (new_AutoFixer test1_text) test1_fixes))).
Proof.
  apply (getResult_insertions_length
           (snd (applyFixes (new_AutoFixer test1_text) test1_fixes)));
    set (l := _replacements _); vm_compute in l; subst l.
  - repeat constructor.
  - constructor; [left; reflexivity|].
    constructor; [right; reflexivity|].
    constructor; [left; reflexivity | constructor].
Defined.

(** X17.  After [reset] nothing conflicts any more: every fix whose
    replacements resolve is accepted, and the session then holds its
    candidates alone. *)
Theorem applyFix_after_reset
    (this : AutoFixer) (item : option Item)
    (reps : list Replacement.t) (cs : list Candidate.t) :
  fix_replacements item = Some reps ->
  make_candidates this reps = Ok cs ->
  applyFix (reset this) item = (Ok true, set_replacements this cs).
Proof.
  intros Hitem Hcs. unfold applyFix, reset. rewrite Hitem.
  rewrite (applyFix_loop_accepts _ reps [] cs).
  - reflexivity.
  - rewrite make_candidates_file. exact Hcs.
  - apply Forall_forall. intros c _. reflexivity.
Qed.

Lemma applyFix_after_reset_witness :
  fst (applyFix sample_session (bare [sample_rep 1 3 1 "Y"])) = Ok false
  /\ fst (applyFix (reset sample_session) (bare [sample_rep 1 3 1 "Y"]))
     = Ok true.
Proof.
  split; [reflexivity|].
  erewrite (applyFix_after_reset sample_session
              (bare [sample_rep 1 3 1 "Y"])).
  - reflexivity.
  - reflexivity.
  - vm_compute. reflexivity.
Defined.

End SingleReplacement.

(* ================================================================= *)
(** ** The conflict test and the shape of the tree *)

Section ConflictTest.

(** X18.  Between two ranges that are not empty the test of line 60
    holds exactly when they share a position of the text; an empty range
    conflicts with another range exactly when it lies strictly inside
    it. *)
Theorem overlaps_meaning (c e : Candidate.t) :
  (Candidate.start c < Candidate.end_ c ->
   Candidate.start e < Candidate.end_ e ->
   (overlaps c e = true
    <-> exists x,
        (Candidate.start c <= x /\ x < Candidate.end_ c)
        /\ (Candidate.start e <= x /\ x < Candidate.end_ e)))
  /\ (Candidate.start c = Candidate.end_ c ->
      (overlaps c e = true
       <-> Candidate.start e < Candidate.start c
           /\ Candidate.start c < Candidate.end_ e)).
Proof.
  assert (Hov : overlaps c e = true
                <-> Candidate.start e < Candidate.end_ c
                    /\ Candidate.start c < Candidate.end_ e).
  { unfold overlaps. rewrite andb_true_iff, !Z.gtb_ltb, !Z.ltb_lt.
    reflexivity. }
  split.
  - intros Hc He. rewrite Hov. split.
    + intros (H1 & H2).
      exists (Z.max (Candidate.start c) (Candidate.start e)). lia.
    + intros (x & Hx1 & Hx2). lia.
  - intros Hzero. rewrite Hov. lia.
Qed.

Lemma overlaps_meaning_witness :
  (overlaps sample_unanchored (sample_candidate 1 4) = true
   <-> 1 < 2 /\ 2 < 4)
  /\ (overlaps (sample_candidate 0 2) (sample_candidate 1 4) = true
      <-> exists x, (0 <= x /\ x < 2) /\ (1 <= x /\ x < 4)).
Proof.
  split.
  - exact (proj2 (overlaps_meaning sample_unanchored (sample_candidate 1 4))
             eq_refl).
  - exact (proj1 (overlaps_meaning (sample_candidate 0 2)
                    (sample_candidate 1 4)) eq_refl eq_refl).
Defined.

End ConflictTest.

Section TreeShape.

Import PrefixSumTree.

Lemma pivots_insert_node (n : node) :
  forall point value x,
    In x (pivots (insert_node n point value))
    <-> x = point \/ In x (pivots n).
Proof.
  induction n as [pivot sumLeft l r IHl IHr] using node_children_ind.
  intros point value x. cbn [insert_node].
  destruct (Z.ltb_spec point pivot); [|destruct (Z.gtb_spec point pivot)].
  - cbn [pivots]. rewrite !in_app_iff. cbn [In].
    destruct l as [c|]; cbn [on_child] in IHl.
    + rewrite IHl. tauto.
    + cbn [pivots app In]. intuition congruence.
  - cbn [pivots]. rewrite !in_app_iff. cbn [In].
    destruct r as [c|]; cbn [on_child] in IHr.
    + rewrite IHr. tauto.
    + cbn [pivots app In]. intuition congruence.
  - cbn [pivots]. rewrite !in_app_iff. cbn [In].
    assert (point = pivot) by lia. subst. intuition congruence.
Qed.

Lemma search_tree_insert_node (n : node) :
  forall lo hi point value,
    search_tree lo hi n -> above lo point -> below hi point ->
    search_tree lo hi (insert_node n point value).
Proof.
  induction n as [pivot sumLeft l r IHl IHr] using node_children_ind.
  intros lo hi point value (H1 & H2 & H3 & H4) Hlo Hhi.
  cbn [insert_node].
  destruct (Z.ltb_spec point pivot); [|destruct (Z.gtb_spec point pivot)];
    cbn [search_tree]; repeat split; try assumption.
  - destruct l as [c|]; cbn [on_child] in IHl.
    + apply IHl; [exact H3 | exact Hlo | exact H].
    + cbn [search_tree]. repeat split; [exact Hlo | exact H].
  - destruct r as [c|]; cbn [on_child] in IHr.
    + apply IHr; [exact H4 | cbn; lia | exact Hhi].
    + cbn [search_tree]. repeat split; [cbn; lia | exact Hhi].
Qed.

Lemma StronglySorted_middle (l1 l2 : list Z) (x : Z) :
  StronglySorted Z.lt l1 -> StronglySorted Z.lt l2 ->
  Forall (fun y => y < x) l1 -> Forall (fun y => x < y) l2 ->
  StronglySorted Z.lt (l1 ++ x :: l2).
Proof.
  intros H1 H2 Hl Hr. induction H1 as [|y l1 Hs IH Hy]; cbn [app].
  - constructor; assumption.
  - inversion Hl as [|? ? Hyx Hl']; subst.
    constructor; [apply IH; exact Hl'|].
    apply Forall_app. split; [exact Hy|].
    constructor; [exact Hyx|].
    eapply Forall_impl; [|exact Hr]. cbn. intros z Hz. lia.
Qed.

Lemma search_tree_pivots (n : node) :
  forall lo hi,
    search_tree lo hi n ->
    Forall (fun x => above lo x /\ below hi x) (pivots n)
    /\ StronglySorted Z.lt (pivots n).
Proof.
  induction n as [pivot sumLeft l r IHl IHr] using node_children_ind.
  intros lo hi (H1 & H2 & H3 & H4). cbn [pivots].
  assert (Hleft : Forall (fun x => above lo x /\ x < pivot)
                    match l with None => [] | Some c => pivots c end
                  /\ StronglySorted Z.lt
                       match l with None => [] | Some c => pivots c end).
  { destruct l as [c|]; [|split; constructor]. cbn [on_child] in IHl.
    apply (IHl lo (Some pivot) H3). }
  assert (Hright : Forall (fun x => pivot < x /\ below hi x)
                     match r with None => [] | Some c => pivots c end
                   /\ StronglySorted Z.lt
                        match r with None => [] | Some c => pivots c end).
  { destruct r as [c|]; [|split; constructor]. cbn [on_child] in IHr.
    apply (IHr (Some pivot) hi H4). }
  destruct Hleft as (Hl1 & Hl2), Hright as (Hr1 & Hr2). split.
  - apply Forall_app. split.
    + eapply Forall_impl; [|exact Hl1]. cbn. intros x (Hx1 & Hx2).
      split; [exact Hx1|]. destruct hi as [b|]; cbn in *; [lia | exact I].
    + constructor; [split; assumption|].
      eapply Forall_impl; [|exact Hr1]. cbn. intros x (Hx1 & Hx2).
      split; [|exact Hx2]. destruct lo as [b|]; cbn in *; [lia | exact I].
  - apply StronglySorted_middle; try assumption.
    + eapply Forall_impl; [|exact Hl1]. cbn. tauto.
    + eapply Forall_impl; [|exact Hr1]. cbn. tauto.
Qed.

Lemma insert_all_shape (ops : list (Z * Z)) :
  forall tr,
    search_tree None None (tree tr) ->
    search_tree None None (tree (insert_all tr ops))
    /\ forall x,
        In x (pivots (tree (insert_all tr ops)))
        <-> In x (pivots (tree tr)) \/ In x (map fst ops).
Proof.
  induction ops as [|[point value] ops IH]; intros tr Htr.
  - split; [exact Htr|]. intros x. cbn [insert_all fold_left map In]. tauto.
  - unfold insert_all in *. cbn [fold_left fst snd map In].
    destruct (IH (insert tr point value)) as (Hs & Hin).
    + unfold insert. cbn [tree].
      apply search_tree_insert_node; [exact Htr | exact I | exact I].
    + split; [exact Hs|]. intros x. rewrite Hin.
      unfold insert. cbn [tree]. rewrite pivots_insert_node.
      intuition congruence.
Qed.

(** X19.  After any run of [insert] calls on a new tree, the tree is a
    search tree: its pivots read from left to right increase strictly,
    and they are 0, the pivot of the root, and the points inserted, each
    once. *)
Theorem tree_keeps_search_order (ops : list (Z * Z)) :
  StronglySorted Z.lt (pivots (tree (insert_all new ops)))
  /\ forall x,
      In x (pivots (tree (insert_all new ops)))
      <-> x = 0 \/ In x (map fst ops).
Proof.
  destruct (insert_all_shape ops new) as (Hs & Hin).
  - cbn. tauto.
  - split; [apply (search_tree_pivots _ None None Hs)|].
    intros x. rewrite Hin. cbn [new tree pivots app In]. intuition congruence.
Qed.

Lemma deltas_upto_perm (ops ops' : list (Z * Z)) (p : Z) :
  Permutation ops ops' -> deltas_upto ops p = deltas_upto ops' p.
Proof.
  induction 1 as [|[a d] l l' _ IH|[a d] [a' d'] l|l1 l2 l3 _ IH1 _ IH2];
    rewrite ?deltas_upto_cons; lia.
Qed.

(** X20.  What [lookup] answers does not depend on the order of the
    [insert] calls before it. *)
Theorem lookup_order_independent (ops ops' : list (Z * Z)) (p : Z) :
  Permutation ops ops' ->
  lookup (insert_all new ops) p = lookup (insert_all new ops') p.
Proof.
  intros Hperm. rewrite !lookup_insert_all, (deltas_upto_perm _ _ p Hperm).
  reflexivity.
Qed.

Lemma lookup_order_independent_witness :
  lookup (insert_all new [(5, 8); (4, 1); (5, 1)]) 5
  = lookup (insert_all new [(5, 1); (5, 8); (4, 1)]) 5.
Proof.
  apply (lookup_order_independent [(5, 8); (4, 1); (5, 1)]
           [(5, 1); (5, 8); (4, 1)] 5).
  apply Permutation_sym.
  apply (Permutation_cons_app [(5, 8); (4, 1)] [] (5, 1)).
  reflexivity.
Defined.

End TreeShape.

(* ================================================================= *)
(** ** The columns of a tab, and a fix submitted twice *)

Section TabSpan.

(** Past a stretch without tabs that ends before the requested column. *)
Lemma adjustTabStops_loop_skip (pre : str) :
  forall (rest : str) (i c : Z),
    0 <= i -> i + len pre < c ->
    Forall (fun ch => ch <> tab) pre ->
    adjustTabStops_loop (pre ++ rest) i i c
    = adjustTabStops_loop rest (i + len pre) (i + len pre) c.
Proof.
  induction pre as [|ch pre IH]; intros rest i c Hi Hc Hfree.
  - cbn [app]. unfold len. cbn. f_equal; lia.
  - rewrite len_cons in Hc |- *. cbn [app adjustTabStops_loop].
    pose proof (len_nonneg pre).
    inversion Hfree as [|? ? Hch Hpre]; subst.
    destruct (Ascii.eqb_spec ch tab) as [->|_]; [congruence|].
    destruct (Z.leb_spec c (i + 1)); [lia|].
    rewrite IH by (try assumption; lia). f_equal; lia.
Qed.

(** X21.  A tab that follows [n] characters without tabs takes the
    columns from [n + 1] up to the next multiple of 8: every such column
    of the tool is the tab itself, the character [n + 1] of the line. *)
Theorem adjustTabStops_on_tab
    (this : AutoFixer) (lineNo c : Z) (pre rest : str) :
  index (_lines this) (lineNo - 1) = Some (pre ++ tab :: rest)%list ->
  Forall (fun ch => ch <> tab) pre ->
  len pre < c <= 8 * (len pre / 8) + 8 ->
  adjustTabStops this lineNo c = Ok (len pre + 1).
Proof.
  intros Hline Hfree Hc. unfold adjustTabStops. rewrite Hline. f_equal.
  pose proof (len_nonneg pre) as Hn.
  rewrite adjustTabStops_loop_skip by (try assumption; lia).
  cbn [adjustTabStops_loop]. rewrite Ascii.eqb_refl.
  replace (0 + len pre) with (len pre) by lia.
  rewrite Z.rem_mod_nonneg by lia.
  pose proof (Z.div_mod (len pre) 8 ltac:(lia)) as Hdiv.
  destruct (Z.leb_spec c (len pre + (8 - len pre mod 8))); [reflexivity|lia].
Qed.

Lemma adjustTabStops_on_tab_witness :
  adjustTabStops (new_AutoFixer (lit "echo $var:" ++ [tab] ++ lit "$value"))
                 1 14
  = Ok (len (lit "echo $var:") + 1).
Proof.
  apply (adjustTabStops_on_tab
           (new_AutoFixer (lit "echo $var:" ++ [tab] ++ lit "$value"))
           1 14 (lit "echo $var:") (lit "$value")).
  - reflexivity.
  - repeat constructor; discriminate.
  - vm_compute. split; [reflexivity | discriminate].
Defined.

End TabSpan.

Section SubmittedTwice.

(** X22.  A fix that was accepted and is submitted again is rejected when
    one of its candidates has a range that is not empty, since it then
    conflicts with itself; a fix of insertions only is accepted again,
    and its candidates are then held twice. *)
Theorem applyFix_twice
    (this : AutoFixer) (item : option Item)
    (reps : list Replacement.t) (cs : list Candidate.t) :
  fix_replacements item = Some reps ->
  make_candidates this reps = Ok cs ->
  disjoint_groups cs (_replacements this) ->
  let this' := set_replacements this (_replacements this ++ cs) in
  applyFix this item = (Ok true, this')
  /\ (Exists (fun c => Candidate.start c < Candidate.end_ c) cs ->
      applyFix this' item = (Ok false, this'))
  /\ (Forall (fun c => Candidate.start c = Candidate.end_ c) cs ->
      applyFix this' item
      = (Ok true, set_replacements this (_replacements this ++ cs ++ cs))).
Proof.
  intros Hitem Hcs Hdis. cbv zeta. split; [|split].
  - unfold applyFix. rewrite Hitem.
    rewrite (applyFix_loop_accepts this reps [] cs Hcs); [reflexivity|].
    apply disjoint_groups_Forall. exact Hdis.
  - intros Hwide. unfold applyFix. rewrite Hitem.
    rewrite (applyFix_loop_rejects_any _ reps [] cs); [reflexivity | |].
    + rewrite make_candidates_file. exact Hcs.
    + apply Exists_exists in Hwide. destruct Hwide as (c & Hc & Hw).
      apply Exists_exists. exists c. split; [exact Hc|].
      apply existsb_exists. exists c.
      cbn [_replacements set_replacements].
      split; [apply in_or_app; right; exact Hc|].
      unfold overlaps. rewrite Z.gtb_ltb.
      destruct (Z.ltb_spec (Candidate.start c) (Candidate.end_ c));
        [reflexivity | lia].
  - intros Hzero. unfold applyFix. rewrite Hitem.
    rewrite (applyFix_loop_accepts _ reps [] cs).
    + cbn [app _replacements set_replacements _file].
      rewrite <- app_assoc. reflexivity.
    + rewrite make_candidates_file. exact Hcs.
    + apply Forall_forall. intros c Hc.
      destruct (existsb (overlaps c)
                  (_replacements
                     (set_replacements this (_replacements this ++ cs))))
        eqn:Hex; [|reflexivity].
      apply existsb_exists in Hex. destruct Hex as (e & He & Hov).
      cbn [_replacements set_replacements] in He.
      apply in_app_or in He. destruct He as [He|He].
      * rewrite (Hdis c e Hc He) in Hov. discriminate.
      * rewrite Forall_forall in Hzero.
        pose proof (Hzero c Hc). pose proof (Hzero e He).
        unfold overlaps in Hov. rewrite andb_true_iff, !Z.gtb_ltb in Hov.
        rewrite !Z.ltb_lt in Hov. lia.
Qed.

Lemma applyFix_twice_witness :
  (let item := bare [sample_rep 5 7 1 "Y"] in
   fst (applyFix (snd (applyFix sample_session item)) item) = Ok false)
  /\ (let item := bare [sample_rep 5 5 1 "Y"] in
      map Candidate.start
          (_replacements
             (snd (applyFix (snd (applyFix sample_session item)) item)))
      = [1; 4; 4]).
Proof.
  split; cbv zeta.
  - edestruct (applyFix_twice sample_session (bare [sample_rep 5 7 1 "Y"]))
      as (H1 & H2 & _).
    + reflexivity.
    + vm_compute. reflexivity.
    + intros c e Hc He. vm_compute in Hc, He.
      destruct He as [<-|[]], Hc as [<-|[]]. reflexivity.
    + rewrite H1. cbn [snd]. rewrite H2; [reflexivity|].
      constructor. vm_compute. reflexivity.
  - edestruct (applyFix_twice sample_session (bare [sample_rep 5 5 1 "Y"]))
      as (H1 & _ & H3).
    + reflexivity.
    + vm_compute. reflexivity.
    + intros c e Hc He. vm_compute in Hc, He.
      destruct He as [<-|[]], Hc as [<-|[]]. reflexivity.
    + rewrite H1. cbn [snd]. rewrite H3; [reflexivity|].
      constructor; [reflexivity | constructor].
Defined.

End SubmittedTwice.

Section SnippetAndResult.

(** X23.  With accepted candidates, [getSnippet] returns exactly when
    [getResult] returns, and otherwise both raise the same exception. *)
Theorem getSnippet_agrees_with_getResult (this : AutoFixer) :
  _replacements this <> [] ->
  (exists snippet full,
      fst (getSnippet this) = Ok snippet /\ fst (getResult this) = Ok full)
  \/ (exists e,
        fst (getSnippet this) = Throw e /\ fst (getResult this) = Throw e).
Proof.
  intros Hne. unfold getSnippet, getResult.
  pose proof (sort_perm by_precedence (_replacements this)) as Hperm.
  destruct (_replacements this) as [|c0 l0] eqn:Hacc; [congruence|].
  rewrite <- Hacc in *.
  destruct (sort by_precedence (_replacements this)) as [|first sorted]
    eqn:Hsorted.
  - apply Permutation_sym, Permutation_nil in Hperm. congruence.
  - cbn [fst _file set_replacements]. rewrite snippet_loop_applyReplacements.
    destruct (applyReplacements (rev (first :: sorted)) (_file this)
                PrefixSumTree.new) as [[full tree]|e]; cbn [bind fst snd].
    + left. eexists. eexists. split; reflexivity.
    + right. exists e. split; reflexivity.
Qed.

Lemma getSnippet_agrees_with_getResult_witness :
  (exists snippet full,
      fst (getSnippet sample_session3) = Ok snippet
      /\ fst (getResult sample_session3) = Ok full)
  \/ (exists e,
        fst (getSnippet sample_session3) = Throw e
        /\ fst (getResult sample_session3) = Throw e).
Proof.
  apply (getSnippet_agrees_with_getResult sample_session3).
  vm_compute. discriminate.
Defined.

End SnippetAndResult.

(* ================================================================= *)
(** ** The snippet of the touched lines *)

Section TouchedLines.

Import PrefixSumTree.








End TouchedLines.
